(** * Konva export demo: shape generation and the four export encodings

    A shallow embedding of [src/index.js]: the shape generator
    ([generateShapes], [getRandomInt], [getRandomColor]) and the export
    handlers ([handleRegularExport], [handleMinifiedExport],
    [handleOptimizedExport], [handleCompressedExport]) with
    [downloadAndShowSize].

    Numbers.  A JavaScript number is a double.  The generator draws every
    position and rotation with [Math.floor], so these fields hold integers
    and are modelled in [Z]; differences and sums of such integers are
    exact in double arithmetic as long as they stay below 2^53, which the
    model does not track.  Values that leave the integers (the opacity
    0.75, the scaled templates [value * size / 100]) are modelled as exact
    rationals in [Q]; rounding to a double is abstracted away.

    Effects.  [Math.random] is a state monad over the number of draws made
    from a given sequence; the handlers run in a state monad over the
    state of the [App] component.

    What the program calls and does not define ([JSON.parse],
    [JSON.stringify], Konva's [Stage.toJSON]) is the interface [Host]; the
    module [Json] implements the two JSON built-ins, and a decoder and a
    stage serializer are modelled from the specification where a property
    is about them. *)

From Stdlib Require Import NArith ZArith QArith Qround String Ascii List Lia Bool.
From Stdlib Require Import DecimalString DecimalPos DecimalZ.
From ExtLib Require Import Structures.Monad Structures.MonadState.
From ExtLib Require Import Data.Monads.StateMonad Data.Monads.OptionMonad.
Import ListNotations.
Import MonadNotation.

Local Open Scope string_scope.
Local Open Scope list_scope.
Local Open Scope Z_scope.

Set Warnings "-register-all".

(** ** JavaScript values *)

(** The values that reach [JSON.stringify]: numbers, strings, arrays and
    plain objects (an object keeps its keys in insertion order), together
    with the two literals a JSON text can also hold. *)
Inductive jsval : Type :=
| JNull
| JBool (b : bool)
| JNum (q : Q)
| JStr (s : string)
| JArr (l : list jsval)
| JObj (l : list (string * jsval)).

Definition object := list (string * jsval).

(** [o[key]] *)
Fixpoint obj_get (o : object) (key : string) : option jsval :=
  match o with
  | [] => None
  | (k, v) :: rest => if String.eqb k key then Some v else obj_get rest key
  end.

(** [o[key] = v]: an existing key keeps its place, a new key goes last. *)
Fixpoint obj_set (o : object) (key : string) (v : jsval) : object :=
  match o with
  | [] => [(key, v)]
  | (k, w) :: rest =>
      if String.eqb k key then (k, v) :: rest else (k, w) :: obj_set rest key v
  end.

(** [Object.keys(o)] *)
Definition keys (o : object) : list string := map fst o.

(** [{...a, ...b}] *)
Definition spread (a b : object) : object :=
  fold_left (fun acc kv => obj_set acc (fst kv) (snd kv)) b a.

(** [s.charAt(n)]: the empty string when [n] is out of range.  A string is
    a sequence of bytes here; on the kind names, which are ASCII, a byte
    is a character. *)
Definition charAt (s : string) (n : nat) : string :=
  match String.get n s with
  | Some c => String c EmptyString
  | None => EmptyString
  end.

(** Field access on a value, [None] for a missing key or a non-object. *)
Definition field (key : string) (v : jsval) : option jsval :=
  match v with
  | JObj o => obj_get o key
  | _ => None
  end.

(** An integer-valued number field. *)
Definition int_field (key : string) (v : jsval) : option Z :=
  match field key v with
  | Some (JNum q) => if Pos.eqb (Qden q) 1 then Some (Qnum q) else None
  | _ => None
  end.

Definition num (z : Z) : jsval := JNum (inject_Z z).

(** ** Constants of the program *)

Definition SHAPE_COUNT : Z := 10000.
Definition STAGE_WIDTH : Z := 10000.
Definition STAGE_HEIGHT : Z := 10000.
Definition SCALE : Q := 1 # 10.

Definition COMMON_PROPS : object :=
  [ ("shadowBlur", num 5); ("opacity", JNum (75 # 100)) ].

Definition SHAPE_DEFAULTS : object :=
  [ ("rect", JObj [ ("width", num 100); ("height", num 100) ]);
    ("circle", JObj [ ("radius", num 50) ]);
    ("text", JObj [ ("text", JStr "â˜…"); ("fontSize", num 100) ]);
    ("star", JObj [ ("numPoints", num 5); ("innerRadius", num 50);
                    ("outerRadius", num 100) ]);
    ("triangle", JObj [ ("sides", num 3); ("radius", num 100) ]);
    ("hexagon", JObj [ ("sides", num 6); ("radius", num 100) ]) ].

Definition shapeTypes : list string :=
  [ "rect"; "circle"; "text"; "star"; "triangle"; "hexagon" ].

Definition colors : list string :=
  [ "#F00"; "#0F0"; "#00F"; "#FF0"; "#F0F"; "#0FF" ].

(** ** Shapes *)

(** A shape object of the [shapes] state.  The six fields every handler
    destructures are record fields; [attrs] holds the remaining keys of
    the object in order (the common properties and the scaled template
    of the kind). *)
Record shape : Type := mkShape {
  id : string;
  x : Z;
  y : Z;
  fill : string;
  rotation : Z;
  type : string;
  attrs : object
}.

(** ** The optimized and the compressed projections *)

(** The callback of [shapes.map] in [handleOptimizedExport]. *)
Definition optimizedShape (s : shape) : jsval :=
  JObj [ ("i", JStr (id s));
         ("x", num (x s));
         ("y", num (y s));
         ("f", JStr (fill s));
         ("r", num (rotation s));
         ("t", JStr (charAt (type s) 0)) ].

Definition optimizedShapes (shapes : list shape) : list jsval :=
  map optimizedShape shapes.

(** The object handed to [JSON.stringify] in [handleOptimizedExport]. *)
Definition optimizedPayload (shapes : list shape) : jsval :=
  JObj [ ("v", num 1);
         ("c", JObj COMMON_PROPS);
         ("d", JObj SHAPE_DEFAULTS);
         ("s", JArr (optimizedShapes shapes)) ].

(** The callback of [shapes.map] in [handleCompressedExport] closes over
    the mutable locals [lastX] and [lastY]; the map is written out as a
    left-to-right pass that threads them. *)
Fixpoint compressedFrom (lastX lastY : Z) (shapes : list shape) : list jsval :=
  match shapes with
  | [] => []
  | s :: rest =>
      let deltaX := x s - lastX in
      let deltaY := y s - lastY in
      JObj [ ("i", JStr (id s));
             ("x", num deltaX);
             ("y", num deltaY);
             ("f", JStr (fill s));
             ("r", num (rotation s));
             ("t", JStr (charAt (type s) 0)) ]
        :: compressedFrom (x s) (y s) rest
  end.

Definition compressedShapes (shapes : list shape) : list jsval :=
  compressedFrom 0 0 shapes.

(** The object handed to [JSON.stringify] in [handleCompressedExport]. *)
Definition compressedPayload (shapes : list shape) : jsval :=
  JObj [ ("v", num 1);
         ("c", JObj COMMON_PROPS);
         ("d", JObj SHAPE_DEFAULTS);
         ("s", JArr (compressedShapes shapes)) ].

(** The tag a shape of kind [k] gets in both encodings. *)
Definition tag (k : string) : string := charAt k 0.

(** Reading the payloads back: the sequence of one integer field over the
    entries of a shapes list, and the running sums of a delta sequence
    (the reconstruction [x_i = x_(i-1) + delta_i] with seed [0]). *)
Definition int_column (key : string) (entries : list jsval) : list (option Z) :=
  map (int_field key) entries.



(** The deltas of section 4.5 of the spec: [x_i - x_(i-1)] with
    [x_(-1) = prev]. *)
Fixpoint deltas_from (prev : Z) (xs : list Z) : list Z :=
  match xs with
  | [] => []
  | v :: rest => (v - prev) :: deltas_from v rest
  end.

(** The three-shape scene of the delta scenario. *)
Definition scenario : list shape :=
  [ mkShape "0" 10 20 "#F00" 0 "rect" [];
    mkShape "1" 15 5 "#0F0" 0 "circle" [];
    mkShape "2" 100 100 "#00F" 0 "star" [] ].

(** What two entries of a shapes list share when only their position may
    differ: the entry with its [x] and [y] blanked. *)
Definition blank_xy (e : jsval) : jsval :=
  match e with
  | JObj o => JObj (obj_set (obj_set o "x" JNull) "y" JNull)
  | _ => e
  end.


(** ** The shape generator *)

(** [Math.random()] is the only effect of the generator.  The random
    source is the sequence [randoms] of the values it returns, and the
    state is the number of calls made so far.  A step that would throw (a
    property read off [undefined]) ends the run with [None]. *)
Local Open Scope monad_scope.

Definition gen : Type -> Type := stateT nat option.

#[local] Instance Monad_gen : Monad gen := Monad_stateT nat Monad_option.
#[local] Instance MonadState_gen : MonadState nat gen :=
  MonadState_stateT nat Monad_option.

Definition throw {A : Type} : gen A := mkStateT (fun _ => None).

Definition orThrow {A : Type} (o : option A) : gen A :=
  match o with
  | Some a => ret a
  | None => throw
  end.

(** [a[i]]: [None] (the value [undefined]) off the array. *)
Definition array_get {A : Type} (a : list A) (i : Z) : option A :=
  if i <? 0 then None else nth_error a (Z.to_nat i).

(** [i.toString()] for an integer [i]. *)
Definition toString (i : Z) : string := NilZero.string_of_int (Z.to_int i).

(** [typeof value === "number" ? (value * size) / 100 : value] *)
Definition scaleValue (size : Z) (value : jsval) : jsval :=
  match value with
  | JNum q => JNum ((q * inject_Z size) / 100)%Q
  | _ => value
  end.

(** [Object.entries(shapeDefaults).reduce(..., {})] *)
Definition scaledDefaults (shapeDefaults : object) (size : Z) : object :=
  fold_left (fun acc kv => obj_set acc (fst kv) (scaleValue size (snd kv)))
            shapeDefaults [].

Section Generator.

Variable randoms : nat -> Q.

Definition Math_random : gen Q :=
  n <- get ;;
  put (S n) ;;
  ret (randoms n).

(** [Math.floor(Math.random() * (max - min + 1)) + min] *)
Definition getRandomInt (min max : Z) : gen Z :=
  r <- Math_random ;;
  ret (Qfloor (r * inject_Z (max - min + 1)) + min).

(** [colors[Math.floor(Math.random() * colors.length)]]; the palette has
    no entry off its range, where the model stops. *)
Definition getRandomColor : gen string :=
  r <- Math_random ;;
  orThrow (array_get colors (Qfloor (r * inject_Z (Z.of_nat (length colors))))).

(** The body of the loop of [generateShapes] for the ordinal [i].  A type
    off the array is [undefined], for which [SHAPE_DEFAULTS] has no entry
    and [Object.entries] throws; the model stops at the first of the
    two. *)
Definition generateShape (stageWidth stageHeight : Z) (i : Z) : gen shape :=
  r <- Math_random ;;
  shapeType <-
    orThrow (array_get shapeTypes
               (Qfloor (r * inject_Z (Z.of_nat (length shapeTypes))))) ;;
  x <- getRandomInt 0 stageWidth ;;
  y <- getRandomInt 0 stageHeight ;;
  size <- getRandomInt 50 150 ;;
  rotation <- getRandomInt 0 360 ;;
  color <- getRandomColor ;;
  shapeDefaults <-
    orThrow (match obj_get SHAPE_DEFAULTS shapeType with
             | Some (JObj o) => Some o
             | _ => None
             end) ;;
  ret (mkShape (toString i) x y color rotation shapeType
               (spread COMMON_PROPS (scaledDefaults shapeDefaults size))).

(** [for (let i = ...; i < count; i++) shapes.push(...)], with [todo]
    iterations left. *)
Fixpoint generateFrom (stageWidth stageHeight : Z) (i : Z) (todo : nat)
  : gen (list shape) :=
  match todo with
  | O => ret []
  | S todo' =>
      s <- generateShape stageWidth stageHeight i ;;
      rest <- generateFrom stageWidth stageHeight (i + 1) todo' ;;
      ret (s :: rest)
  end.

(** The generator with its three constants as arguments. *)
Definition generate (count stageWidth stageHeight : Z) : gen (list shape) :=
  generateFrom stageWidth stageHeight 0 (Z.to_nat count).

Definition generateShapes : gen (list shape) :=
  generate SHAPE_COUNT STAGE_WIDTH STAGE_HEIGHT.

End Generator.

(** The shapes a run of the generator returns, from a fresh random source. *)
Definition generated (randoms : nat -> Q) (count stageWidth stageHeight : Z)
  : option (list shape) :=
  option_map fst (runStateT (generate randoms count stageWidth stageHeight) O).

(** ** The export handlers *)

(** The state of the [App] component (its [useState] cells), and the files
    handed to the browser by [a.click()], oldest first: file name and
    content.  A string is a sequence of UTF-8 bytes, so the size of a blob
    is the length of its text. *)
Record App : Type := mkApp {
  fileSize : option Z;
  shapes : list shape;
  selectedId : option string;
  isLoading : bool;
  stagePos : Q * Q;
  lastExportMethod : string;
  downloads : list (string * string)
}.

(** What the handlers call and the program does not define: the two JSON
    built-ins ([JSON_parse] is [None] where [JSON.parse] throws a
    SyntaxError) and Konva's [Stage.toJSON] on the stage the component has
    rendered from its state. *)
Class Host : Type := {
  JSON_stringify : jsval -> string;
  JSON_parse : string -> option jsval;
  Stage_toJSON : App -> string
}.

(** The law of the JSON built-ins the minified export relies on: a parsed
    value, serialized, parses to itself. *)
Definition parse_stringify_law (H : Host) : Prop :=
  forall (text : string) (v : jsval),
    JSON_parse text = Some v -> JSON_parse (JSON_stringify v) = Some v.

Definition Blob_size (blob : string) : Z := Z.of_nat (String.length blob).

Definition setShapes (newShapes : list shape) : state App unit :=
  st <- get ;;
  put (mkApp (fileSize st) newShapes (selectedId st) (isLoading st)
             (stagePos st) (lastExportMethod st) (downloads st)).

Definition setFileSize (size : Z) : state App unit :=
  st <- get ;;
  put (mkApp (Some size) (shapes st) (selectedId st) (isLoading st)
             (stagePos st) (lastExportMethod st) (downloads st)).

Definition setLastExportMethod (method : string) : state App unit :=
  st <- get ;;
  put (mkApp (fileSize st) (shapes st) (selectedId st) (isLoading st)
             (stagePos st) method (downloads st)).

(** [a.href = URL.createObjectURL(blob); a.download = name; a.click()] *)
Definition click_download (name blob : string) : state App unit :=
  st <- get ;;
  put (mkApp (fileSize st) (shapes st) (selectedId st) (isLoading st)
             (stagePos st) (lastExportMethod st)
             (downloads st ++ [(name, blob)])).

Definition downloadAndShowSize (blob method : string) : state App unit :=
  let size := Blob_size blob in
  setFileSize size ;;
  setLastExportMethod method ;;
  click_download (String.append "stage-" (String.append method ".json")) blob.

Inductive exn : Type := SyntaxError.

Section Handlers.

Context {host : Host}.

(** The text each strategy puts in its blob. *)
Definition regularJson (st : App) : string := Stage_toJSON st.

Definition minifiedJson (st : App) : exn + string :=
  match JSON_parse (Stage_toJSON st) with
  | Some v => inr (JSON_stringify v)
  | None => inl SyntaxError
  end.

Definition optimizedJson (st : App) : string :=
  JSON_stringify (optimizedPayload (shapes st)).

Definition compressedJson (st : App) : string :=
  JSON_stringify (compressedPayload (shapes st)).

Definition handleRegularExport : state App unit :=
  st <- get ;;
  let json := Stage_toJSON st in
  downloadAndShowSize json "regular".

(** [JSON.parse] may throw; the handler then ends before any state is
    set. *)
Definition handleMinifiedExport : state App (exn + unit) :=
  st <- get ;;
  let json := Stage_toJSON st in
  match JSON_parse json with
  | None => ret (inl SyntaxError)
  | Some parsed =>
      let minified := JSON_stringify parsed in
      downloadAndShowSize minified "minified" ;;
      ret (inr tt)
  end.

Definition handleOptimizedExport : state App unit :=
  st <- get ;;
  let optimizedShapes := optimizedShapes (shapes st) in
  let optimizedJson :=
    JSON_stringify (JObj [ ("v", num 1);
                           ("c", JObj COMMON_PROPS);
                           ("d", JObj SHAPE_DEFAULTS);
                           ("s", JArr optimizedShapes) ]) in
  downloadAndShowSize optimizedJson "optimized".

Definition handleCompressedExport : state App unit :=
  st <- get ;;
  let compressedShapes := compressedFrom 0 0 (shapes st) in
  let compressedJson :=
    JSON_stringify (JObj [ ("v", num 1);
                           ("c", JObj COMMON_PROPS);
                           ("d", JObj SHAPE_DEFAULTS);
                           ("s", JArr compressedShapes) ]) in
  downloadAndShowSize compressedJson "compressed".

End Handlers.

(** The file the last export handed to the browser. *)
Definition last_download (st : App) : option (string * string) :=
  last (map Some (downloads st)) None.

(** ** A JSON implementation

    A printer and a recursive-descent parser for JSON texts over
    [jsval], following ECMA-404: insignificant whitespace, the three
    literals, numbers with an optional fraction, strings with the
    two-character escapes and [\u00XX], arrays and objects.  It is one
    implementation of the interface of [Host]; what it leaves out is
    refused by the parser: exponents in numbers, and [\uXXXX] escapes
    above U+007F.  A number is a fraction [n # 10^e], written with [e]
    digits after the point. *)
Module Json.

Local Open Scope string_scope.
Local Open Scope N_scope.

Definition dquote : ascii := "034"%char.
Definition bslash : ascii := "092"%char.

Definition is_ws (c : ascii) : bool :=
  Ascii.eqb c " " || Ascii.eqb c "009" || Ascii.eqb c "010" || Ascii.eqb c "013".

Definition is_digit (c : ascii) : bool :=
  (48 <=? N_of_ascii c) && (N_of_ascii c <=? 57).

Fixpoint skip_ws (s : string) : string :=
  match s with
  | String c rest => if is_ws c then skip_ws rest else s
  | EmptyString => s
  end.

(** *** Numbers *)

Definition digit_of (c : ascii) : N := N_of_ascii c - 48.
Definition digit_char (d : N) : ascii := ascii_of_N (48 + d).

Fixpoint digits_value_from (acc : N) (s : string) : N :=
  match s with
  | EmptyString => acc
  | String c rest => digits_value_from (10 * acc + digit_of c) rest
  end.

Definition digits_value (s : string) : N := digits_value_from 0 s.

(** The last [width] decimal digits of [n]. *)
Fixpoint fixed_digits (width : nat) (n : N) : string :=
  match width with
  | O => EmptyString
  | S w => fixed_digits w (n / 10) ++ String (digit_char (n mod 10)) EmptyString
  end.

Fixpoint strip_zeros (s : string) : string :=
  match s with
  | String c rest =>
      match rest with
      | EmptyString => s
      | String _ _ => if Ascii.eqb c "0" then strip_zeros rest else s
      end
  | EmptyString => s
  end.

(** The decimal digits of [n], without leading zeros. *)
Definition digits (n : N) : string :=
  strip_zeros (fixed_digits (S (N.to_nat (N.size n))) n).

Fixpoint pow10 (e : nat) : positive :=
  match e with
  | O => 1%positive
  | S e' => (10 * pow10 e')%positive
  end.

Fixpoint pow10_log_from (fuel : nat) (d : N) : option nat :=
  match fuel with
  | O => None
  | S fuel' =>
      if d =? 1 then Some O
      else if d mod 10 =? 0 then option_map S (pow10_log_from fuel' (d / 10))
      else None
  end.

(** The [e] with [d = 10^e], if there is one. *)
Definition pow10_log (d : positive) : option nat :=
  pow10_log_from (N.to_nat (N.size (Npos d))) (Npos d).

Definition print_number (q : Q) : string :=
  match pow10_log (Qden q) with
  | None => "null"
  | Some e =>
      let a := Z.to_N (Z.abs (Qnum q)) in
      let scale := Npos (pow10 e) in
      (if (Qnum q <? 0)%Z then "-" else "")
        ++ digits (a / scale)
        ++ match e with
           | O => ""
           | S _ => "." ++ fixed_digits e (a mod scale)
           end
  end.

(** The longest prefix of digits, and what follows it. *)
Fixpoint span_digits (s : string) : string * string :=
  match s with
  | String c rest =>
      if is_digit c
      then let (ds, r) := span_digits rest in (String c ds, r)
      else (EmptyString, s)
  | EmptyString => (EmptyString, EmptyString)
  end.

(** An integer part is one digit, or starts with a digit other than 0. *)
Definition int_part_ok (ip : string) : bool :=
  match ip with
  | EmptyString => false
  | String _ EmptyString => true
  | String c _ => negb (Ascii.eqb c "0")
  end.

(** Mantissa, number of fraction digits, rest of the input. *)
Definition parse_unsigned (s : string) : option (N * nat * string) :=
  let (ip, s1) := span_digits s in
  if int_part_ok ip then
    match s1 with
    | String c s2 =>
        if Ascii.eqb c "." then
          let (fp, s3) := span_digits s2 in
          match fp with
          | EmptyString => None
          | String _ _ => Some (digits_value (ip ++ fp), String.length fp, s3)
          end
        else Some (digits_value ip, O, s1)
    | EmptyString => Some (digits_value ip, O, s1)
    end
  else None.

Definition signed (negative : bool) (r : option (N * nat * string))
  : option (Q * string) :=
  match r with
  | Some (m, e, rest) =>
      Some ((if negative then - Z.of_N m else Z.of_N m)%Z # pow10 e, rest)
  | None => None
  end.

Definition parse_number (s : string) : option (Q * string) :=
  match s with
  | String c s' =>
      if Ascii.eqb c "-" then signed true (parse_unsigned s')
      else signed false (parse_unsigned s)
  | EmptyString => None
  end.

(** *** Strings *)

Definition hex_char (n : N) : ascii :=
  if n <? 10 then ascii_of_N (48 + n) else ascii_of_N (87 + n).

Definition hex_value (c : ascii) : option N :=
  let n := N_of_ascii c in
  if (48 <=? n) && (n <=? 57) then Some (n - 48)
  else if (97 <=? n) && (n <=? 102) then Some (n - 87)
  else if (65 <=? n) && (n <=? 70) then Some (n - 55)
  else None.

Definition hex4 (a b c d : ascii) : option N :=
  match hex_value a, hex_value b, hex_value c, hex_value d with
  | Some x, Some y, Some z, Some w => Some (((x * 16 + y) * 16 + z) * 16 + w)
  | _, _, _, _ => None
  end.

Definition two (a b : ascii) : string := String a (String b EmptyString).

Definition escape_char (c : ascii) : string :=
  if Ascii.eqb c dquote then two bslash dquote
  else if Ascii.eqb c bslash then two bslash bslash
  else if Ascii.eqb c "008" then two bslash "b"
  else if Ascii.eqb c "012" then two bslash "f"
  else if Ascii.eqb c "010" then two bslash "n"
  else if Ascii.eqb c "013" then two bslash "r"
  else if Ascii.eqb c "009" then two bslash "t"
  else if N_of_ascii c <? 32
       then two bslash "u" ++ "00"
            ++ two (hex_char (N_of_ascii c / 16)) (hex_char (N_of_ascii c mod 16))
  else String c EmptyString.

Fixpoint escape (s : string) : string :=
  match s with
  | EmptyString => EmptyString
  | String c rest => escape_char c ++ escape rest
  end.

Definition quote (s : string) : string :=
  String dquote (escape s ++ String dquote EmptyString).

Definition cons_char (c : ascii) (r : option (string * string))
  : option (string * string) :=
  match r with
  | Some (s, rest) => Some (String c s, rest)
  | None => None
  end.

(** The characters of a string literal after its opening quote, up to
    and including the closing quote. *)
Fixpoint parse_chars (s : string) : option (string * string) :=
  match s with
  | EmptyString => None
  | String c rest =>
      if Ascii.eqb c dquote then Some (EmptyString, rest)
      else if Ascii.eqb c bslash then
        match rest with
        | EmptyString => None
        | String e rest' =>
            if Ascii.eqb e dquote then cons_char dquote (parse_chars rest')
            else if Ascii.eqb e bslash then cons_char bslash (parse_chars rest')
            else if Ascii.eqb e "/" then cons_char "/" (parse_chars rest')
            else if Ascii.eqb e "b" then cons_char "008" (parse_chars rest')
            else if Ascii.eqb e "f" then cons_char "012" (parse_chars rest')
            else if Ascii.eqb e "n" then cons_char "010" (parse_chars rest')
            else if Ascii.eqb e "r" then cons_char "013" (parse_chars rest')
            else if Ascii.eqb e "t" then cons_char "009" (parse_chars rest')
            else if Ascii.eqb e "u" then
              match rest' with
              | String h1 (String h2 (String h3 (String h4 rest''))) =>
                  match hex4 h1 h2 h3 h4 with
                  | Some n =>
                      if n <? 128
                      then cons_char (ascii_of_N n) (parse_chars rest'')
                      else None
                  | None => None
                  end
              | _ => None
              end
            else None
        end
      else if N_of_ascii c <? 32 then None
      else cons_char c (parse_chars rest)
  end.

(** *** Values *)

Fixpoint join (sep : string) (l : list string) : string :=
  match l with
  | [] => EmptyString
  | s :: rest =>
      match rest with
      | [] => s
      | _ :: _ => s ++ sep ++ join sep rest
      end
  end.

Fixpoint stringify (v : jsval) : string :=
  match v with
  | JNull => "null"
  | JBool true => "true"
  | JBool false => "false"
  | JNum q => print_number q
  | JStr s => quote s
  | JArr l => "[" ++ join "," (map stringify l) ++ "]"
  | JObj o =>
      "{" ++ join "," (map (fun kv => quote (fst kv) ++ ":" ++ stringify (snd kv)) o)
          ++ "}"
  end.

(** [expect word rest v]: the input goes on with [word]. *)
Fixpoint expect (word rest : string) (v : jsval) : option (jsval * string) :=
  match word with
  | EmptyString => Some (v, rest)
  | String c word' =>
      match rest with
      | String d rest' => if Ascii.eqb c d then expect word' rest' v else None
      | EmptyString => None
      end
  end.

Section Loops.

(** The parser of one value, at the nesting depth below. *)
Variable parse_one : string -> option (jsval * string).

(** The elements of a non-empty array, up to and including the
    closing bracket. *)
Fixpoint parse_elements (n : nat) (s : string) : option (list jsval * string) :=
  match n with
  | O => None
  | S n' =>
      match parse_one s with
      | None => None
      | Some (v, r) =>
          match skip_ws r with
          | String c r' =>
              if Ascii.eqb c "," then
                match parse_elements n' r' with
                | Some (vs, r'') => Some (v :: vs, r'')
                | None => None
                end
              else if Ascii.eqb c "]" then Some ([v], r')
              else None
          | EmptyString => None
          end
      end
  end.

(** The members of a non-empty object, up to and including the closing
    brace; a key that comes again replaces the value it had. *)
Fixpoint parse_members (n : nat) (s : string) (acc : object)
  : option (object * string) :=
  match n with
  | O => None
  | S n' =>
      match skip_ws s with
      | String q r =>
          if Ascii.eqb q dquote then
            match parse_chars r with
            | None => None
            | Some (key, r1) =>
                match skip_ws r1 with
                | String c r2 =>
                    if Ascii.eqb c ":" then
                      match parse_one r2 with
                      | None => None
                      | Some (v, r3) =>
                          let acc' := obj_set acc key v in
                          match skip_ws r3 with
                          | String d r4 =>
                              if Ascii.eqb d "," then parse_members n' r4 acc'
                              else if Ascii.eqb d "}" then Some (acc', r4)
                              else None
                          | EmptyString => None
                          end
                      end
                    else None
                | EmptyString => None
                end
            end
          else None
      | EmptyString => None
      end
  end.

End Loops.

Definition tagged {A : Type} (f : A -> jsval) (r : option (A * string))
  : option (jsval * string) :=
  match r with
  | Some (a, rest) => Some (f a, rest)
  | None => None
  end.

(** The input starts with the character [c]; the input after its first
    character. *)
Definition closes (c : ascii) (s : string) : bool :=
  match s with
  | String d _ => Ascii.eqb d c
  | EmptyString => false
  end.

Definition behead (s : string) : string :=
  match s with
  | String _ rest => rest
  | EmptyString => EmptyString
  end.

Fixpoint parse_value (fuel : nat) (s : string) : option (jsval * string) :=
  match fuel with
  | O => None
  | S fuel' =>
      match skip_ws s with
      | EmptyString => None
      | String c rest =>
          if is_digit c || Ascii.eqb c "-" then
            tagged JNum (parse_number (String c rest))
          else if Ascii.eqb c dquote then tagged JStr (parse_chars rest)
          else if Ascii.eqb c "[" then
            if closes "]" (skip_ws rest) then Some (JArr [], behead (skip_ws rest))
            else tagged JArr (parse_elements (parse_value fuel') fuel' rest)
          else if Ascii.eqb c "{" then
            if closes "}" (skip_ws rest) then Some (JObj [], behead (skip_ws rest))
            else tagged JObj (parse_members (parse_value fuel') fuel' rest [])
          else if Ascii.eqb c "n" then expect "ull" rest JNull
          else if Ascii.eqb c "t" then expect "rue" rest (JBool true)
          else if Ascii.eqb c "f" then expect "alse" rest (JBool false)
          else None
      end
  end.

(** [JSON.parse(text)] *)
Definition parse (text : string) : option jsval :=
  match parse_value (S (String.length text)) text with
  | Some (v, rest) =>
      match skip_ws rest with
      | EmptyString => Some v
      | String _ _ => None
      end
  | None => None
  end.

(** A value the parser can return: every number a fraction over a power
    of ten, every object with distinct keys. *)
Inductive wf : jsval -> Prop :=
| wf_null : wf JNull
| wf_bool (b : bool) : wf (JBool b)
| wf_num (q : Q) (e : nat) : Qden q = pow10 e -> wf (JNum q)
| wf_str (s : string) : wf (JStr s)
| wf_arr (l : list jsval) : Forall wf l -> wf (JArr l)
| wf_obj (o : object) :
    NoDup (keys o) -> Forall (fun kv => wf (snd kv)) o -> wf (JObj o).

(** The characters a value can start with. *)
Definition starts_value (c : ascii) : bool :=
  is_digit c || Ascii.eqb c "-" || Ascii.eqb c dquote || Ascii.eqb c "["
  || Ascii.eqb c "{" || Ascii.eqb c "n" || Ascii.eqb c "t" || Ascii.eqb c "f".

(** How a member of an object is written. *)
Definition member (kv : string * jsval) : string :=
  quote (fst kv) ++ ":" ++ stringify (snd kv).

(** What may come after a number in a text: not a digit, not a point. *)
Definition ends_number (rest : string) : Prop :=
  match rest with
  | EmptyString => True
  | String c _ => is_digit c = false /\ c <> "."%char
  end.

(** *** The length of the text of a value *)

Fixpoint escape_length (s : string) : nat :=
  match s with
  | EmptyString => O
  | String c rest => (String.length (escape_char c) + escape_length rest)%nat
  end.

(** The length of the text between the brackets of an array or object
    with the closing bracket, from the lengths of the items: every item is
    followed by a comma or by the closing bracket. *)
Definition items_length (lengths : list nat) : nat :=
  match lengths with
  | [] => 1%nat
  | _ :: _ => fold_right (fun n acc => (n + 1 + acc)%nat) O lengths
  end.

Definition number_length (q : Q) : nat := String.length (print_number q).

Fixpoint text_length (v : jsval) : nat :=
  match v with
  | JNull => 4%nat
  | JBool true => 4%nat
  | JBool false => 5%nat
  | JNum q => number_length q
  | JStr s => (2 + escape_length s)%nat
  | JArr l => (1 + items_length (map text_length l))%nat
  | JObj o =>
      (1 + items_length
             (map (fun kv => 2 + escape_length (fst kv) + 1 + text_length (snd kv))
                  o))%nat
  end.

(** [parse_one] reads back what [stringify] wrote for [v]. *)
Definition reads (parse_one : string -> option (jsval * string)) (v : jsval)
  : Prop :=
  forall rest, ends_number rest ->
    parse_one (stringify v ++ rest) = Some (v, rest).

Fixpoint all_digits (s : string) : bool :=
  match s with
  | EmptyString => true
  | String c rest => is_digit c && all_digits rest
  end.

End Json.

(** ** A host for the examples *)

(** The [Component] lookup of [Shape]: the Konva class that draws a shape
    of the given type, by its name. *)
Definition Component (type : string) : string :=
  if String.eqb type "rect" then "Rect"
  else if String.eqb type "circle" then "Circle"
  else if String.eqb type "text" then "Text"
  else if String.eqb type "star" then "Star"
  else "RegularPolygon".

(** Modelled from the spec: Konva's [Stage.toJSON], which writes the
    regular export, is not among the sources of the program.  Section 4.2
    of the spec has the regular encoding serialize every shape with every
    attribute, shared style included, under its full key, as a tree of
    key-value records.  The node of a shape holds all its properties and
    the [draggable] its component sets, with the class that draws it. *)
Definition shape_node (s : shape) : jsval :=
  JObj [ ("attrs",
          JObj ([ ("id", JStr (id s)); ("x", num (x s)); ("y", num (y s));
                  ("fill", JStr (fill s)); ("rotation", num (rotation s));
                  ("type", JStr (type s)) ]
                  ++ attrs s ++ [ ("draggable", JBool true) ]));
         ("className", JStr (Component (type s))) ].

(** Modelled from the spec: Konva's [Stage.toJSON] is not among the
    sources of the program; section 6 of the spec has the regular export
    be the full shape tree.  The tree of the stage [App] renders: a stage
    of 800 by 800 at scale [SCALE] with one layer that holds the shapes
    (the position of the stage is left out). *)
Definition stage_node (st : App) : jsval :=
  JObj [ ("attrs",
          JObj [ ("width", num 800); ("height", num 800);
                 ("scaleX", JNum SCALE); ("scaleY", JNum SCALE);
                 ("draggable", JBool true) ]);
         ("className", JStr "Stage");
         ("children",
          JArr [ JObj [ ("attrs", JObj []);
                        ("className", JStr "Layer");
                        ("children", JArr (map shape_node (shapes st))) ] ]) ].

(** A host made of the JSON implementation above and any stage
    serializer. *)
Definition json_host (toJSON : App -> string) : Host := {|
  JSON_stringify := Json.stringify;
  JSON_parse := Json.parse;
  Stage_toJSON := toJSON
|}.

(** Modelled from the spec: Konva's [Stage.toJSON] is not among the
    sources of the program.  The host whose regular export is the text of
    the full shape tree of section 4.2 of the spec, with no whitespace.
    (Konva itself leaves out the attributes that hold their default value;
    this one keeps them all.) *)
Definition demo_host : Host :=
  json_host (fun st => Json.stringify (stage_node st)).

(** The component state once the three shapes of the scenario are loaded. *)
Definition demo_app : App :=
  mkApp None scenario None false (0, 0)%Q "" [].

(** ** A decoder for the optimized format *)

(** Modelled from the spec: the program has no decoder and raises no
    error of its own.  These are the decode errors of section 7 of the
    spec. *)
Inductive decode_error : Type :=
| UnsupportedVersionError
| TagAmbiguityError
| MalformedStreamError.

(** Modelled from the spec: the program only exports and has no decoder.
    Sections 4.4 and 7 of the spec ask that a tag which does not map to
    exactly one known kind fails with a TagAmbiguityError. *)
Definition kind_of_tag (t : string) : decode_error + string :=
  match filter (fun k => String.eqb (tag k) t) shapeTypes with
  | [k] => inr k
  | _ => inl TagAmbiguityError
  end.

(** Modelled from the spec: the program has no decoder.  One entry of the
    shapes list gives back id, position, fill, rotation and kind, with the
    common style and the nominal (unscaled) template of the kind as its
    remaining attributes (section 4.4: the scaled sizes are not kept). *)
Definition decode_entry (common templates : object) (e : jsval)
  : decode_error + shape :=
  match field "i" e, int_field "x" e, int_field "y" e,
        field "f" e, int_field "r" e, field "t" e with
  | Some (JStr i), Some px, Some py, Some (JStr f), Some r, Some (JStr t) =>
      match kind_of_tag t with
      | inl err => inl err
      | inr k =>
          match obj_get templates k with
          | Some (JObj template) => inr (mkShape i px py f r k (common ++ template))
          | _ => inl MalformedStreamError
          end
      end
  | _, _, _, _, _, _ => inl MalformedStreamError
  end.

(** Modelled from the spec: the program has no decoder.  The entries are
    decoded in order and the first error ends the decoding. *)
Fixpoint decode_entries (common templates : object) (entries : list jsval)
  : decode_error + list shape :=
  match entries with
  | [] => inr []
  | e :: rest =>
      match decode_entry common templates e with
      | inl err => inl err
      | inr s =>
          match decode_entries common templates rest with
          | inl err => inl err
          | inr shapes => inr (s :: shapes)
          end
      end
  end.

(** Modelled from the spec: the program has no decoder.  Sections 4.5 and
    7 of the spec ask that the version is checked before any layout is
    read and that a version other than 1 fails with an
    UnsupportedVersionError; the result is an error or a whole collection,
    never a part of one. *)
Definition decodeOptimized (payload : jsval) : decode_error + list shape :=
  match field "v" payload with
  | Some (JNum q) =>
      if Qeq_bool q 1 then
        match field "c" payload, field "d" payload, field "s" payload with
        | Some (JObj common), Some (JObj templates), Some (JArr entries) =>
            decode_entries common templates entries
        | _, _, _ => inl MalformedStreamError
        end
      else inl UnsupportedVersionError
  | _ => inl UnsupportedVersionError
  end.

(** An optimized payload whose version field holds [version]. *)
Definition payload_with_version (version : jsval) (shapes : list shape) : jsval :=
  match optimizedPayload shapes with
  | JObj o => JObj (obj_set o "v" version)
  | other => other
  end.

(** ** Predicates used to state the properties *)

(** What an entry of the optimized shapes list holds for the shape [s]:
    an object with the six keys i, x, y, f, r, t in this order and the
    values read off [s]. *)
Definition projects (s : shape) (e : jsval) : Prop :=
  exists o : object,
    e = JObj o /\
    keys o = [ "i"; "x"; "y"; "f"; "r"; "t" ] /\
    obj_get o "i" = Some (JStr (id s)) /\
    obj_get o "x" = Some (num (x s)) /\
    obj_get o "y" = Some (num (y s)) /\
    obj_get o "f" = Some (JStr (fill s)) /\
    obj_get o "r" = Some (num (rotation s)) /\
    obj_get o "t" = Some (JStr (charAt (type s) 0)).

(** Same keys, and the same value under i, f, r and t. *)
Definition agree_off_xy (a b : jsval) : Prop :=
  option_map keys (match a with JObj o => Some o | _ => None end)
  = option_map keys (match b with JObj o => Some o | _ => None end) /\
  field "i" a = field "i" b /\ field "f" a = field "f" b /\
  field "r" a = field "r" b /\ field "t" a = field "t" b /\
  field "i" a <> None /\ field "f" a <> None /\
  field "r" a <> None /\ field "t" a <> None.

(** [v'] is the template value [v] under the size factor: a number is
    multiplied by [size / 100], anything else is copied. *)
Definition scaled_by (size : Z) (v v' : jsval) : Prop :=
  match v with
  | JNum q => exists q', v' = JNum q' /\ (q' == q * (inject_Z size / 100))%Q
  | _ => v' = v
  end.

(** [o'] is the template [o] under the size factor: the same keys in the
    same order, every value scaled. *)
Definition template_scaled (size : Z) (o o' : object) : Prop :=
  Forall2 (fun kv kv' => fst kv' = fst kv /\ scaled_by size (snd kv) (snd kv'))
          o o'.

(** What the generator promises of one shape on a stage of the given
    width and height. *)
Definition shape_ok (stageWidth stageHeight : Z) (s : shape) : Prop :=
  In (type s) shapeTypes /\
  0 <= x s <= stageWidth /\
  0 <= y s <= stageHeight /\
  0 <= rotation s <= 360 /\
  In (fill s) colors /\
  exists (size : Z) (template scaled : object),
    50 <= size <= 150 /\
    obj_get SHAPE_DEFAULTS (type s) = Some (JObj template) /\
    attrs s = COMMON_PROPS ++ scaled /\
    template_scaled size template scaled.

(** How the generator builds the attributes of [s]: the common properties,
    then the template of its kind with every value through [scaleValue]
    for one size in [50, 150]. *)
Definition shape_built (s : shape) : Prop :=
  exists (size : Z) (template : object),
    50 <= size <= 150 /\
    obj_get SHAPE_DEFAULTS (type s) = Some (JObj template) /\
    attrs s
    = COMMON_PROPS ++ map (fun kv => (fst kv, scaleValue size (snd kv))) template.

(** A random source as [Math.random] documents it: every draw in [0, 1). *)
Definition unit_draws (randoms : nat -> Q) : Prop :=
  forall n : nat, (0 <= randoms n)%Q /\ (randoms n < 1)%Q.

(** The ordinals [0 .. n-1] as the generator prints them. *)
Definition ordinals (n : nat) : list string :=
  map (fun i => toString (Z.of_nat i)) (seq 0 n).




(** Random sources for the examples: every draw the same value. *)
Definition constant_draws (r : Q) : nat -> Q := fun _ => r.

(** ** The interaction handlers *)

Definition setSelectedId (selected : option string) : state App unit :=
  st <- get ;;
  put (mkApp (fileSize st) (shapes st) selected (isLoading st)
             (stagePos st) (lastExportMethod st) (downloads st)).


Definition setStagePos (pos : Q * Q) : state App unit :=
  st <- get ;;
  put (mkApp (fileSize st) (shapes st) (selectedId st) (isLoading st)
             pos (lastExportMethod st) (downloads st)).

(** [a[i] = v] at an index of the array.  (Off the array JavaScript would
    extend it; the handlers below only write at the index of a shape that
    [shapes.map] has rendered, and the model leaves the array as it is
    there.) *)
Fixpoint array_set {A : Type} (a : list A) (i : nat) (v : A) : list A :=
  match a with
  | [] => []
  | h :: rest =>
      match i with
      | O => v :: rest
      | S j => h :: array_set rest j v
      end
  end.

(** The [onChange] that [App] gives the [Shape] of index [i]:
    [newShapes = shapes.slice(); newShapes[i] = newAttrs;
    setShapes(newShapes)]. *)
Definition onChange (i : nat) (newAttrs : shape) : state App unit :=
  st <- get ;;
  let newShapes := array_set (shapes st) i newAttrs in
  setShapes newShapes.

(** [onSelect] of the [Shape] of [shape]: [setSelectedId(shape.id)]. *)
Definition onSelect (s : shape) : state App unit :=
  setSelectedId (Some (id s)).

(** [isSelected={shape.id === selectedId}] *)
Definition isSelected (st : App) (s : shape) : bool :=
  match selectedId st with
  | Some selected => String.eqb (id s) selected
  | None => false
  end.

(** [checkDeselect]: [clickedOnEmpty] is [e.target === e.target.getStage()]. *)
Definition checkDeselect (clickedOnEmpty : bool) : state App unit :=
  if clickedOnEmpty then setSelectedId None else ret tt.

(** The argument of [onChange] in [onDragEnd]:
    [{...shapeProps, x: e.target.x(), y: e.target.y()}]. *)
Definition dragged (shapeProps : shape) (targetX targetY : Z) : shape :=
  mkShape (id shapeProps) targetX targetY (fill shapeProps)
          (rotation shapeProps) (type shapeProps) (attrs shapeProps).

(** What [onTransformEnd] reads off the Konva node of the shape. *)
Record node : Type := mkNode {
  node_x : Z;
  node_y : Z;
  node_width : Q;
  node_height : Q;
  node_scaleX : Q;
  node_scaleY : Q;
  node_rotation : Z
}.

(** The argument of [onChange] in [onTransformEnd]:
    [{...shapeProps, x: node.x(), y: node.y(),
      width: node.width() * scaleX, height: node.height() * scaleY,
      rotation: node.rotation()}]. *)
Definition transformed (shapeProps : shape) (n : node) : shape :=
  let scaleX := node_scaleX n in
  let scaleY := node_scaleY n in
  mkShape (id shapeProps) (node_x n) (node_y n) (fill shapeProps)
          (node_rotation n) (type shapeProps)
          (obj_set (obj_set (attrs shapeProps)
                            "width" (JNum (node_width n * scaleX)%Q))
                   "height" (JNum (node_height n * scaleY)%Q)).

(** [node.scaleX(1); node.scaleY(1)] *)
Definition reset_scale (n : node) : node :=
  mkNode (node_x n) (node_y n) (node_width n) (node_height n) 1 1
         (node_rotation n).

(** [Math.max] and [Math.min] of two numbers. *)
Definition Math_max (a b : Q) : Q := if Qle_bool a b then b else a.
Definition Math_min (a b : Q) : Q := if Qle_bool a b then a else b.

(** The boxes of the transformer. *)
Record box : Type := mkBox {
  box_x : Q;
  box_y : Q;
  box_width : Q;
  box_height : Q;
  box_rotation : Q
}.

(** [boundBoxFunc]: a new box whose larger side is below 5 is refused. *)
Definition boundBoxFunc (oldBox newBox : box) : box :=
  let maxSize := Math_max (box_width newBox) (box_height newBox) in
  if negb (Qle_bool 5 maxSize) then oldBox else newBox.

(** The larger side of a box is 5 at least. *)
Definition large_enough (b : box) : Prop :=
  (5 <= Math_max (box_width b) (box_height b))%Q.

(** [handleWheel].  From the event and the stage it reads the scale of the
    stage ([stage.scaleX()]), the pointer position, the position of the
    stage and [e.evt.deltaY]; numbers are exact rationals (a division by
    zero, which gives an infinity or a NaN in JavaScript, is outside the
    model). *)
Definition newScale_of (oldScale deltaY : Q) : Q :=
  Math_max (5 # 100) (Math_min 4 (oldScale * (1 - deltaY / 1000)))%Q.

Definition mousePointTo_of (oldScale pointer stagePosition : Q) : Q :=
  (pointer / oldScale - stagePosition / oldScale)%Q.

Definition handleWheel (oldScale pointerX pointerY stageX stageY deltaY : Q)
  : state App unit :=
  let mousePointToX := mousePointTo_of oldScale pointerX stageX in
  let mousePointToY := mousePointTo_of oldScale pointerY stageY in
  let newScale := newScale_of oldScale deltaY in
  setStagePos ((- (mousePointToX - pointerX / newScale) * newScale)%Q,
               (- (mousePointToY - pointerY / newScale) * newScale)%Q).


(** ** The events of a session *)

Inductive export_method : Type := Regular | Minified | Optimized | Compressed.

(** What the user can do once the stage is shown.  A drag, a transform or
    a click on a shape names the index of its [Shape] component. *)
Inductive event : Type :=
| DragEnd (i : nat) (targetX targetY : Z)
| TransformEnd (i : nat) (n : node)
| Click (i : nat)
| MouseDown (clickedOnEmpty : bool)
| Wheel (oldScale pointerX pointerY stageX stageY deltaY : Q)
| ExportClick (method : export_method).

Section Session.

Context {host : Host}.

(** The handler an event runs.  [shapes.map] renders one [Shape] per
    shape, so an index off the array has no component and no handler. *)
Definition handle (e : event) : state App unit :=
  st <- get ;;
  match e with
  | DragEnd i targetX targetY =>
      match nth_error (shapes st) i with
      | Some shapeProps => onChange i (dragged shapeProps targetX targetY)
      | None => ret tt
      end
  | TransformEnd i n =>
      match nth_error (shapes st) i with
      | Some shapeProps => onChange i (transformed shapeProps n)
      | None => ret tt
      end
  | Click i =>
      match nth_error (shapes st) i with
      | Some s => onSelect s
      | None => ret tt
      end
  | MouseDown clickedOnEmpty => checkDeselect clickedOnEmpty
  | Wheel oldScale pointerX pointerY stageX stageY deltaY =>
      handleWheel oldScale pointerX pointerY stageX stageY deltaY
  | ExportClick Regular => handleRegularExport
  | ExportClick Minified => handleMinifiedExport ;; ret tt
  | ExportClick Optimized => handleOptimizedExport
  | ExportClick Compressed => handleCompressedExport
  end.

Fixpoint session (events : list event) : state App unit :=
  match events with
  | [] => ret tt
  | e :: rest => handle e ;; session rest
  end.

End Session.

(** ** Predicates of the further properties *)

(** What the optimized and the compressed export keep of a shape. *)
Definition exported_fields (s : shape) : string * Z * Z * string * Z * string :=
  (id s, x s, y s, fill s, rotation s, charAt (type s) 0).




(** The shape the loop of [generateShapes] builds for the ordinal [i] from
    its six draws, in the order it makes them: type, x, y, size, rotation,
    colour. *)
Definition shape_of_draws (stageWidth stageHeight i : Z)
           (dType dX dY dSize dRotation dColor : Q) : option shape :=
  match array_get shapeTypes
          (Qfloor (dType * inject_Z (Z.of_nat (length shapeTypes)))) with
  | None => None
  | Some shapeType =>
      match array_get colors
              (Qfloor (dColor * inject_Z (Z.of_nat (length colors)))) with
      | None => None
      | Some color =>
          match obj_get SHAPE_DEFAULTS shapeType with
          | Some (JObj shapeDefaults) =>
              Some (mkShape (toString i)
                      (Qfloor (dX * inject_Z (stageWidth - 0 + 1)) + 0)
                      (Qfloor (dY * inject_Z (stageHeight - 0 + 1)) + 0)
                      color
                      (Qfloor (dRotation * inject_Z (360 - 0 + 1)) + 0)
                      shapeType
                      (spread COMMON_PROPS
                         (scaledDefaults shapeDefaults
                            (Qfloor (dSize * inject_Z (150 - 50 + 1)) + 50))))
          | _ => None
          end
      end
  end.

(** The six draws of the shape of ordinal [j], when the loop starts at
    draw [n]. *)
Definition shape_of_source (randoms : nat -> Q) (stageWidth stageHeight i : Z)
           (n : nat) : option shape :=
  shape_of_draws stageWidth stageHeight i
    (randoms n) (randoms (1 + n)%nat) (randoms (2 + n)%nat)
    (randoms (3 + n)%nat) (randoms (4 + n)%nat) (randoms (5 + n)%nat).

(** The position the compressed export subtracts from that of the shape
    of index [j]: the seed for the first shape, the position of the shape
    before for the others. *)
Definition position_before (lastX lastY : Z) (l : list shape) (j : nat) : Z * Z :=
  match j with
  | O => (lastX, lastY)
  | S k =>
      match nth_error l k with
      | Some p => (x p, y p)
      | None => (lastX, lastY)
      end
  end.

(** What no handler touches in a shape. *)
Definition identity_of (s : shape) : string * string * string :=
  (id s, fill s, type s).

Definition is_export (e : event) : bool :=
  match e with
  | ExportClick _ => true
  | _ => false
  end.

(** The names [downloadAndShowSize] gives the files of the four exports. *)
Definition export_names : list string :=
  [ "stage-regular.json"; "stage-minified.json";
    "stage-optimized.json"; "stage-compressed.json" ].

(** The size and the method the component shows are those of the file it
    handed out last; before any export it shows no size. *)
Definition display_consistent (st : App) : Prop :=
  match last_download st with
  | Some (name, blob) =>
      fileSize st = Some (Blob_size blob) /\
      name = String.append "stage-" (String.append (lastExportMethod st) ".json")
  | None => fileSize st = None
  end.

(** The state of [App] before its effect has run. *)
Definition initial_app : App := mkApp None [] None true (0, 0)%Q "" [].

(** A host whose stage serializes to the empty object, for running the
    handlers on concrete states. *)
Definition bare_host : Host := json_host (fun _ => "{}").
(** * Properties *)

(** ** Kind tags *)

Lemma tag_of_kinds :
  map tag shapeTypes = [ "r"; "c"; "t"; "s"; "t"; "h" ].
Proof. reflexivity. Qed.

Lemma optimizedShape_tag (s : shape) :
  field "t" (optimizedShape s) = Some (JStr (tag (type s))).
Proof. reflexivity. Qed.

Lemma compressedFrom_tag (s : shape) (lastX lastY : Z) (rest : list shape) :
  option_map (field "t") (hd_error (compressedFrom lastX lastY (s :: rest)))
  = Some (Some (JStr (tag (type s)))).
Proof. reflexivity. Qed.

(** C1 (fails on the code).  The kinds "text" and "triangle" are distinct
    members of the kind enumeration, and a text shape and a triangle shape
    get the same tag "t" in the optimized and in the compressed entry: the
    tag does not determine the kind. *)
Theorem kind_tag_collision :
  In "text" shapeTypes /\ In "triangle" shapeTypes /\ "text" <> "triangle" /\
  tag "text" = "t" /\ tag "triangle" = "t" /\
  (let s1 := mkShape "0" 1 2 "#F00" 0 "text" [] in
   let s2 := mkShape "1" 3 4 "#0F0" 0 "triangle" [] in
   field "t" (optimizedShape s1) = field "t" (optimizedShape s2) /\
   map (field "t") (compressedShapes [s1; s2]) = [Some (JStr "t"); Some (JStr "t")]).
Proof.
  repeat split; try reflexivity; try discriminate; simpl; tauto.
Qed.

(** Away from that pair the tag does separate the kinds. *)
Lemma tag_collision_only_text_triangle (k1 k2 : string) :
  In k1 shapeTypes -> In k2 shapeTypes -> tag k1 = tag k2 ->
  k1 = k2 \/ (k1 = "text" /\ k2 = "triangle") \/ (k1 = "triangle" /\ k2 = "text").
Proof.
  unfold shapeTypes; simpl; intros H1 H2 E.
  repeat (destruct H1 as [H1 | H1]; [subst k1 |]); try contradiction;
  repeat (destruct H2 as [H2 | H2]; [subst k2 |]); try contradiction;
  try discriminate E; auto.
Qed.

(** ** Delta encoding *)

Lemma int_field_num (key : string) (o : object) (z : Z) :
  obj_get o key = Some (num z) -> int_field key (JObj o) = Some z.
Proof. unfold int_field, field; intros ->; reflexivity. Qed.

Lemma compressedFrom_columns (shapes : list shape) : forall lastX lastY,
  int_column "x" (compressedFrom lastX lastY shapes)
    = map Some (deltas_from lastX (map x shapes)) /\
  int_column "y" (compressedFrom lastX lastY shapes)
    = map Some (deltas_from lastY (map y shapes)).
Proof.
  induction shapes as [| s rest IH]; intros lastX lastY; simpl.
  - split; reflexivity.
  - destruct (IH (x s) (y s)) as [IHx IHy].
    unfold int_column in *. cbn [map]. rewrite IHx, IHy.
    split; reflexivity.
Qed.





(** ** The optimized payload *)

Lemma optimizedShape_projects (s : shape) : projects s (optimizedShape s).
Proof.
  exists [ ("i", JStr (id s)); ("x", num (x s)); ("y", num (y s));
           ("f", JStr (fill s)); ("r", num (rotation s));
           ("t", JStr (charAt (type s) 0)) ].
  repeat split.
Qed.

Lemma charAt_first (c : ascii) (k : string) :
  charAt (String c k) 0 = String c EmptyString.
Proof. reflexivity. Qed.

(** C4.  The optimized payload is one object with the keys v, c, d, s:
    v is the number 1, c the common properties, d the per-kind templates
    and s a list with one entry per shape, in order; the entry of a shape
    has exactly the keys i, x, y, f, r, t, holding the shape's id, its x
    and y unchanged, its fill, its rotation and the first character of
    its type, which for each of the six kinds is a one-character string. *)
Theorem optimized_payload_layout (shapes : list shape) :
  exists entries : list jsval,
    optimizedPayload shapes
    = JObj [ ("v", JNum 1); ("c", JObj COMMON_PROPS);
             ("d", JObj SHAPE_DEFAULTS); ("s", JArr entries) ] /\
    Forall2 projects shapes entries /\
    Forall (fun k => exists c rest, k = String c rest /\
                                    charAt k 0 = String c EmptyString)
           shapeTypes.
Proof.
  exists (optimizedShapes shapes). split; [reflexivity | split].
  - unfold optimizedShapes.
    induction shapes as [| s rest IH]; simpl; constructor;
      auto using optimizedShape_projects.
  - unfold shapeTypes. repeat constructor; eexists; eexists; split; reflexivity.
Qed.

(** ** Compressed against optimized *)

Lemma blank_xy_compressedFrom (shapes : list shape) : forall lastX lastY,
  map blank_xy (compressedFrom lastX lastY shapes)
  = map blank_xy (optimizedShapes shapes).
Proof.
  induction shapes as [| s rest IH]; intros lastX lastY; simpl.
  - reflexivity.
  - f_equal. apply IH.
Qed.

Lemma compressedFrom_length (shapes : list shape) : forall lastX lastY,
  length (compressedFrom lastX lastY shapes) = length shapes.
Proof. induction shapes; intros; simpl; auto. Qed.

Lemma compressedFrom_agree (shapes : list shape) : forall lastX lastY,
  Forall2 agree_off_xy (optimizedShapes shapes)
          (compressedFrom lastX lastY shapes).
Proof.
  induction shapes as [| s rest IH]; intros lastX lastY; simpl; constructor.
  - unfold agree_off_xy; simpl. repeat split; discriminate.
  - apply IH.
Qed.

(** C7.  The compressed and the optimized payload of a collection hold the
    same v, c and d; their shapes lists have the same length, the length
    of the collection; corresponding entries have the same keys and agree
    on i, f, r and t; and blanking x and y in every entry makes the two
    payloads' shapes lists equal, so nothing but x and y differs.  The x
    and y of the compressed entries are the deltas of the positions. *)
Theorem compressed_equals_optimized_off_xy (shapes : list shape) :
  field "v" (compressedPayload shapes) = field "v" (optimizedPayload shapes) /\
  field "c" (compressedPayload shapes) = field "c" (optimizedPayload shapes) /\
  field "d" (compressedPayload shapes) = field "d" (optimizedPayload shapes) /\
  field "v" (optimizedPayload shapes) = Some (JNum 1) /\
  field "c" (optimizedPayload shapes) = Some (JObj COMMON_PROPS) /\
  field "d" (optimizedPayload shapes) = Some (JObj SHAPE_DEFAULTS) /\
  field "s" (optimizedPayload shapes) = Some (JArr (optimizedShapes shapes)) /\
  field "s" (compressedPayload shapes) = Some (JArr (compressedShapes shapes)) /\
  length (compressedShapes shapes) = length shapes /\
  length (optimizedShapes shapes) = length shapes /\
  Forall2 agree_off_xy (optimizedShapes shapes) (compressedShapes shapes) /\
  map blank_xy (compressedShapes shapes) = map blank_xy (optimizedShapes shapes) /\
  int_column "x" (compressedShapes shapes) = map Some (deltas_from 0 (map x shapes)) /\
  int_column "y" (compressedShapes shapes) = map Some (deltas_from 0 (map y shapes)) /\
  int_column "x" (optimizedShapes shapes) = map Some (map x shapes) /\
  int_column "y" (optimizedShapes shapes) = map Some (map y shapes).
Proof.
  unfold compressedShapes.
  destruct (compressedFrom_columns shapes 0 0) as [Hx Hy].
  repeat split; try reflexivity; try assumption.
  - apply compressedFrom_length.
  - unfold optimizedShapes. apply length_map.
  - apply compressedFrom_agree.
  - apply blank_xy_compressedFrom.
  - unfold int_column, optimizedShapes. rewrite !map_map. reflexivity.
  - unfold int_column, optimizedShapes. rewrite !map_map. reflexivity.
Qed.

(** ** The generator *)

Lemma Qfloor_scale_bounds (r : Q) (k : Z) :
  (0 <= r)%Q -> (r < 1)%Q -> 0 < k -> 0 <= Qfloor (r * inject_Z k) < k.
Proof.
  intros H0 H1 Hk. split.
  - change 0 with (Qfloor 0). apply Qfloor_resp_le.
    apply Qmult_le_0_compat; [assumption |].
    unfold Qle; simpl; lia.
  - rewrite Zlt_Qlt.
    apply Qle_lt_trans with (r * inject_Z k)%Q; [apply Qfloor_le |].
    setoid_replace (inject_Z k) with (1 * inject_Z k)%Q at 2 by ring.
    apply Qmult_lt_compat_r; [| assumption].
    unfold Qlt; simpl; lia.
Qed.

Lemma array_get_in_range {A : Type} (a : list A) (i : Z) :
  0 <= i < Z.of_nat (length a) ->
  exists v, array_get a i = Some v /\ In v a.
Proof.
  intros [Hlo Hhi]. unfold array_get.
  destruct (Z.ltb_spec i 0) as [Hneg | _]; [lia |].
  destruct (nth_error a (Z.to_nat i)) as [v |] eqn:E.
  - exists v. split; [reflexivity |]. eapply nth_error_In; eassumption.
  - apply nth_error_None in E. lia.
Qed.

Lemma obj_set_fresh (o : object) (key : string) (v : jsval) :
  ~ In key (keys o) -> obj_set o key v = o ++ [(key, v)].
Proof.
  induction o as [| [k w] rest IH]; simpl; intros Hfresh.
  - reflexivity.
  - destruct (String.eqb_spec k key) as [-> | _]; [tauto |].
    rewrite IH by tauto. reflexivity.
Qed.

(** Setting the entries of [l] one after the other on [acc], each value
    through [g], appends them when the keys are new and distinct. *)
Lemma fold_obj_set_fresh (g : jsval -> jsval) (l : object) : forall acc : object,
  NoDup (keys l) ->
  (forall k, In k (keys l) -> ~ In k (keys acc)) ->
  fold_left (fun a kv => obj_set a (fst kv) (g (snd kv))) l acc
  = acc ++ map (fun kv => (fst kv, g (snd kv))) l.
Proof.
  induction l as [| [k v] rest IH]; simpl; intros acc Hnd Hdisj.
  - now rewrite app_nil_r.
  - inversion Hnd as [| ? ? Hk Hrest]; subst.
    rewrite obj_set_fresh by (apply Hdisj; auto).
    rewrite IH; [now rewrite <- app_assoc | assumption |].
    intros k' Hk'. unfold keys. rewrite map_app, in_app_iff. simpl.
    intros [Hin | [-> | []]]; [| contradiction].
    apply (Hdisj k'); auto.
Qed.

Lemma scaledDefaults_map (o : object) (size : Z) :
  NoDup (keys o) ->
  scaledDefaults o size = map (fun kv => (fst kv, scaleValue size (snd kv))) o.
Proof.
  intros Hnd. unfold scaledDefaults.
  rewrite (fold_obj_set_fresh (scaleValue size)); auto.
Qed.

Lemma spread_disjoint (a b : object) :
  NoDup (keys b) -> (forall k, In k (keys b) -> ~ In k (keys a)) ->
  spread a b = a ++ b.
Proof.
  intros Hnd Hdisj. unfold spread.
  rewrite (fold_obj_set_fresh (fun v => v)) by assumption.
  f_equal. rewrite <- (map_id b) at 2. apply map_ext. now intros [k v].
Qed.

Lemma scaleValue_scaled_by (size : Z) (v : jsval) :
  scaled_by size v (scaleValue size v).
Proof.
  destruct v; simpl; try reflexivity.
  eexists; split; [reflexivity |]. field.
Qed.

Lemma template_scaled_map (size : Z) (o : object) :
  template_scaled size o (map (fun kv => (fst kv, scaleValue size (snd kv))) o).
Proof.
  induction o as [| kv rest IH]; simpl; constructor; auto.
  split; [reflexivity | apply scaleValue_scaled_by].
Qed.

(** Every kind of the enumeration has a template, whose keys are distinct
    and none of which is a common property. *)
Lemma template_of_kind (k : string) :
  In k shapeTypes ->
  exists o : object,
    obj_get SHAPE_DEFAULTS k = Some (JObj o) /\
    NoDup (keys o) /\
    (forall key, In key (keys o) -> ~ In key (keys COMMON_PROPS)).
Proof.
  unfold shapeTypes; simpl; intros H.
  repeat (destruct H as [<- | H]; [eexists; split; [reflexivity |] |]);
    try contradiction;
    (split;
     [ repeat constructor; simpl; intuition discriminate
     | simpl; intros key Hkey Hc; intuition (subst; discriminate) ]).
Qed.

Section GeneratorRuns.

Variable randoms : nat -> Q.
Hypothesis draws : unit_draws randoms.

Lemma run_bind {A B : Type} (m : gen A) (f : A -> gen B) (n : nat) :
  runStateT (bind m f) n
  = match runStateT m n with
    | Some (a, n') => runStateT (f a) n'
    | None => None
    end.
Proof. simpl. destruct (runStateT m n) as [[a n'] |]; reflexivity. Qed.

Lemma run_Math_random (n : nat) :
  runStateT (Math_random randoms) n = Some (randoms n, S n).
Proof. reflexivity. Qed.

Lemma run_getRandomInt (min max : Z) (n : nat) :
  runStateT (getRandomInt randoms min max) n
  = Some (Qfloor (randoms n * inject_Z (max - min + 1)) + min, S n).
Proof. reflexivity. Qed.

Lemma getRandomInt_range (min max : Z) (n : nat) :
  min <= max ->
  min <= Qfloor (randoms n * inject_Z (max - min + 1)) + min <= max.
Proof.
  intros Hle. destruct (draws n) as [H0 H1].
  pose proof (Qfloor_scale_bounds (randoms n) (max - min + 1) H0 H1). lia.
Qed.

Lemma run_getRandomColor (n : nat) :
  exists c, runStateT (getRandomColor randoms) n = Some (c, S n) /\ In c colors.
Proof.
  destruct (draws n) as [H0 H1].
  destruct (array_get_in_range colors
              (Qfloor (randoms n * inject_Z (Z.of_nat (length colors)))))
    as (c & Hc & Hin).
  { apply Qfloor_scale_bounds; simpl; auto; lia. }
  exists c. split; [| assumption].
  unfold getRandomColor. rewrite run_bind, run_Math_random, Hc. reflexivity.
Qed.

Lemma run_generateShape (stageWidth stageHeight i : Z) (n : nat) :
  0 <= stageWidth -> 0 <= stageHeight ->
  exists s : shape,
    runStateT (generateShape randoms stageWidth stageHeight i) n
    = Some (s, (n + 6)%nat) /\
    id s = toString i /\
    shape_ok stageWidth stageHeight s /\
    shape_built s.
Proof.
  intros Hw Hh.
  destruct (draws n) as [H0 H1].
  destruct (array_get_in_range shapeTypes
              (Qfloor (randoms n * inject_Z (Z.of_nat (length shapeTypes)))))
    as (k & Hk & Hkin).
  { apply Qfloor_scale_bounds; simpl; auto; lia. }
  destruct (run_getRandomColor (S (S (S (S (S n)))))) as (c & Hc & Hcin).
  destruct (template_of_kind k Hkin) as (o & Ho & Hnd & Hdisj).
  eexists. split; [| split; [| split]].
  - unfold generateShape.
    rewrite run_bind, run_Math_random. cbv beta iota.
    rewrite run_bind, Hk. cbn [orThrow]. cbv beta iota.
    change (runStateT (ret k) (S n)) with (Some (k, S n)). cbv beta iota.
    rewrite run_bind, run_getRandomInt. cbv beta iota.
    rewrite run_bind, run_getRandomInt. cbv beta iota.
    rewrite run_bind, run_getRandomInt. cbv beta iota.
    rewrite run_bind, run_getRandomInt. cbv beta iota.
    rewrite run_bind, Hc. cbv beta iota.
    rewrite run_bind, Ho. cbn [orThrow].
    replace (n + 6)%nat with (S (S (S (S (S (S n)))))) by lia.
    reflexivity.
  - reflexivity.
  - unfold shape_ok; cbn [type x y rotation fill attrs].
    split; [assumption |].
    split; [apply (getRandomInt_range 0 stageWidth); lia |].
    split; [apply (getRandomInt_range 0 stageHeight); lia |].
    split; [apply (getRandomInt_range 0 360); lia |].
    split; [assumption |].
    exists (Qfloor (randoms (S (S (S n))) * inject_Z (150 - 50 + 1)) + 50), o.
    eexists. split; [apply (getRandomInt_range 50 150); lia |].
    split; [assumption |].
    rewrite scaledDefaults_map by assumption.
    split; [apply spread_disjoint |].
    + unfold keys. rewrite map_map. simpl. exact Hnd.
    + unfold keys at 1. rewrite map_map. simpl. exact Hdisj.
    + apply template_scaled_map.
  - unfold shape_built; cbn [type attrs].
    exists (Qfloor (randoms (S (S (S n))) * inject_Z (150 - 50 + 1)) + 50), o.
    split; [apply (getRandomInt_range 50 150); lia |].
    split; [assumption |].
    rewrite scaledDefaults_map by assumption.
    apply spread_disjoint.
    + unfold keys. rewrite map_map. simpl. exact Hnd.
    + unfold keys at 1. rewrite map_map. simpl. exact Hdisj.
Qed.

End GeneratorRuns.

Section GeneratorLoop.

Variable randoms : nat -> Q.
Hypothesis draws : unit_draws randoms.
Variables stageWidth stageHeight : Z.
Hypothesis width_nonneg : 0 <= stageWidth.
Hypothesis height_nonneg : 0 <= stageHeight.

Lemma run_generateFrom (todo : nat) : forall (i : Z) (n : nat),
  exists shapes : list shape,
    runStateT (generateFrom randoms stageWidth stageHeight i todo) n
    = Some (shapes, (n + 6 * todo)%nat) /\
    length shapes = todo /\
    Forall (fun s => shape_ok stageWidth stageHeight s /\ shape_built s)
           shapes /\
    map id shapes = map (fun j => toString (i + Z.of_nat j)) (seq 0 todo).
Proof.
  induction todo as [| todo IH]; intros i n.
  - exists []. replace (n + 6 * 0)%nat with n by lia.
    repeat split; constructor.
  - destruct (run_generateShape randoms draws stageWidth stageHeight i n
                width_nonneg height_nonneg) as (s & Hs & Hid & Hok & Hbuilt).
    destruct (IH (i + 1) (n + 6)%nat) as (rest & Hrest & Hlen & Hall & Hids).
    exists (s :: rest).
    split; [| split; [| split]].
    + cbn [generateFrom]. rewrite run_bind, Hs. cbv beta iota.
      rewrite run_bind, Hrest. cbv beta iota.
      replace (n + 6 + 6 * todo)%nat with (n + 6 * S todo)%nat by lia.
      reflexivity.
    + simpl. now rewrite Hlen.
    + constructor; [split |]; assumption.
    + cbn [map seq]. rewrite Hid, Hids, <- seq_shift, map_map.
      f_equal; [f_equal; lia |].
      apply map_ext. intros j. f_equal. lia.
Qed.

Lemma generated_shapes (count : Z) :
  exists shapes : list shape,
    generated randoms count stageWidth stageHeight = Some shapes /\
    length shapes = Z.to_nat count /\
    Forall (fun s => shape_ok stageWidth stageHeight s /\ shape_built s)
           shapes /\
    map id shapes = ordinals (length shapes).
Proof.
  destruct (run_generateFrom (Z.to_nat count) 0 O)
    as (shapes & Hrun & Hlen & Hall & Hids).
  exists shapes. unfold generated, generate. rewrite Hrun.
  repeat split; try assumption.
  rewrite Hids, Hlen. reflexivity.
Qed.

End GeneratorLoop.





(** C5.  With every draw of the random source in [0, 1) and a stage of
    non-negative width and height, [generate count stageWidth stageHeight]
    returns a collection of exactly [count] shapes; each shape has one of
    the six kinds, integers x in [0, stageWidth], y in [0, stageHeight]
    and rotation in [0, 360], a fill of the palette, and the attribute
    template of its kind with every number multiplied by size/100 for one
    integer size in [50, 150] (preceded by the common properties); and the
    ids are the decimal strings of the ordinals 0, 1, 2, ... *)
Theorem generate_contract (randoms : nat -> Q) (count stageWidth stageHeight : Z) :
  unit_draws randoms -> 0 <= stageWidth -> 0 <= stageHeight ->
  exists shapes : list shape,
    generated randoms count stageWidth stageHeight = Some shapes /\
    length shapes = Z.to_nat count /\
    Forall (shape_ok stageWidth stageHeight) shapes /\
    map id shapes = ordinals (length shapes).
Proof.
  intros Hdraws Hw Hh.
  destruct (generated_shapes randoms Hdraws stageWidth stageHeight Hw Hh count)
    as (shapes & Hgen & Hlen & Hall & Hids).
  exists shapes. repeat split; try assumption.
  eapply Forall_impl; [| exact Hall]. now intros s [Hok _].
Qed.

(** [generateShapes] is the generator at the constants of the program:
    10000 shapes on a stage of 10000 by 10000. *)
Corollary generateShapes_default (randoms : nat -> Q) :
  unit_draws randoms ->
  exists shapes : list shape,
    option_map fst (runStateT (generateShapes randoms) O) = Some shapes /\
    Z.of_nat (length shapes) = SHAPE_COUNT /\
    Forall (shape_ok STAGE_WIDTH STAGE_HEIGHT) shapes /\
    map id shapes = ordinals (length shapes).
Proof.
  intros Hdraws.
  destruct (generated_shapes randoms Hdraws STAGE_WIDTH STAGE_HEIGHT) with
    (count := SHAPE_COUNT) as (shapes & Hgen & Hlen & Hall & Hids);
    [unfold STAGE_WIDTH; lia | unfold STAGE_HEIGHT; lia |].
  exists shapes. repeat split; try assumption.
  - rewrite Hlen. unfold SHAPE_COUNT. lia.
  - eapply Forall_impl; [| exact Hall]. now intros s [Hok _].
Qed.

Lemma constant_draws_unit (r : Q) :
  (0 <= r)%Q -> (r < 1)%Q -> unit_draws (constant_draws r).
Proof. intros H0 H1 n. split; assumption. Qed.

Lemma generate_contract_witness :
  exists shapes : list shape,
    generated (constant_draws (1 # 2)) 3 100 200 = Some shapes /\
    length shapes = Z.to_nat 3 /\
    Forall (shape_ok 100 200) shapes /\
    map id shapes = ordinals (length shapes).
Proof.
  apply (generate_contract (constant_draws (1 # 2)) 3 100 200).
  - intros n; split; [discriminate | reflexivity].
  - lia.
  - lia.
Defined.



(** One run by hand: every draw 0.4 gives kind index 2 (text), x = 40,
    y = 80, size = 90, rotation = 144 and colour index 2. *)
Example generated_text_shape :
  generated (constant_draws (2 # 5)) 1 100 200
  = Some [ mkShape "0" 40 80 "#00F" 144 "text"
                   [ ("shadowBlur", num 5); ("opacity", JNum (75 # 100));
                     ("text", JStr "â˜…"); ("fontSize", JNum (9000 # 100)) ] ].
Proof. reflexivity. Qed.

(** ** The export handlers: what they write and what they leave alone *)

Section HandlerRuns.

Context {host : Host}.

Lemma run_downloadAndShowSize (blob method : string) (st : App) :
  runState (downloadAndShowSize blob method) st
  = (tt, mkApp (Some (Blob_size blob)) (shapes st) (selectedId st)
               (isLoading st) (stagePos st) method
               (downloads st
                  ++ [(String.append "stage-" (String.append method ".json"),
                       blob)])).
Proof. reflexivity. Qed.

Lemma run_handleRegularExport (st : App) :
  runState handleRegularExport st
  = runState (downloadAndShowSize (regularJson st) "regular") st.
Proof. reflexivity. Qed.

Lemma run_handleOptimizedExport (st : App) :
  runState handleOptimizedExport st
  = runState (downloadAndShowSize (optimizedJson st) "optimized") st.
Proof. reflexivity. Qed.

Lemma run_handleCompressedExport (st : App) :
  runState handleCompressedExport st
  = runState (downloadAndShowSize (compressedJson st) "compressed") st.
Proof. reflexivity. Qed.

Lemma run_handleMinifiedExport (st : App) :
  runState handleMinifiedExport st
  = match minifiedJson st with
    | inr minified =>
        (inr tt, snd (runState (downloadAndShowSize minified "minified") st))
    | inl e => (inl e, st)
    end.
Proof.
  unfold handleMinifiedExport, minifiedJson. cbn.
  destruct (JSON_parse (Stage_toJSON st)); reflexivity.
Qed.

End HandlerRuns.

(** C9.  Each of the four export handlers leaves the shapes of the
    component state as they were, whether it ends normally or, for the
    minified export, with the SyntaxError of [JSON.parse]; the minified
    export ends normally or changes nothing at all, and the optimized and
    the compressed export set the method name and hand the serialized
    payload of the unchanged shapes to the browser. *)
Theorem exports_leave_shapes_alone (host : Host) (st : App) :
  shapes (snd (runState handleRegularExport st)) = shapes st /\
  shapes (snd (runState handleMinifiedExport st)) = shapes st /\
  shapes (snd (runState handleOptimizedExport st)) = shapes st /\
  shapes (snd (runState handleCompressedExport st)) = shapes st /\
  (fst (runState handleMinifiedExport st) = inr tt \/
   snd (runState handleMinifiedExport st) = st) /\
  lastExportMethod (snd (runState handleOptimizedExport st)) = "optimized" /\
  lastExportMethod (snd (runState handleCompressedExport st)) = "compressed" /\
  last_download (snd (runState handleOptimizedExport st))
  = Some ("stage-optimized.json", JSON_stringify (optimizedPayload (shapes st))) /\
  last_download (snd (runState handleCompressedExport st))
  = Some ("stage-compressed.json", JSON_stringify (compressedPayload (shapes st))).
Proof.
  rewrite run_handleRegularExport, run_handleOptimizedExport,
    run_handleCompressedExport, run_handleMinifiedExport,
    !run_downloadAndShowSize.
  unfold last_download. cbn [snd fst shapes lastExportMethod downloads].
  rewrite !map_app. cbn [map]. rewrite !last_last.
  repeat split; try reflexivity.
  - destruct (minifiedJson st); reflexivity.
  - destruct (minifiedJson st); [right | left]; reflexivity.
Qed.

(** ** The JSON implementation: a printed value parses to itself *)

Module JsonFacts.

Import Json.
Local Open Scope string_scope.
Local Open Scope N_scope.

(** *** Characters *)

Lemma is_digit_not_ws (c : ascii) : is_digit c = true -> is_ws c = false.
Proof.
  destruct c as [[] [] [] [] [] [] [] []]; intros H;
    solve [reflexivity | discriminate H].
Qed.

Lemma is_digit_not_point (c : ascii) : is_digit c = true -> c <> "."%char.
Proof. intros H ->. discriminate H. Qed.

Lemma is_digit_range (c : ascii) :
  is_digit c = true <-> 48 <= N_of_ascii c <= 57.
Proof.
  unfold is_digit. rewrite andb_true_iff, !N.leb_le. tauto.
Qed.

Lemma N_of_digit_char (d : N) : d < 10 -> N_of_ascii (digit_char d) = 48 + d.
Proof.
  intros Hd. unfold digit_char. apply N_ascii_embedding. lia.
Qed.

Lemma is_digit_digit_char (d : N) : d < 10 -> is_digit (digit_char d) = true.
Proof.
  intros Hd. apply is_digit_range. rewrite N_of_digit_char by assumption. lia.
Qed.

Lemma digit_of_digit_char (d : N) : d < 10 -> digit_of (digit_char d) = d.
Proof.
  intros Hd. unfold digit_of. rewrite N_of_digit_char by assumption. lia.
Qed.

(** *** Strings of digits *)

Lemma append_assoc (a b c : string) : (a ++ b) ++ c = a ++ (b ++ c).
Proof. induction a as [| x a IH]; simpl; [reflexivity | now rewrite IH]. Qed.

Lemma append_nil_r (a : string) : a ++ "" = a.
Proof. induction a as [| x a IH]; simpl; [reflexivity | now rewrite IH]. Qed.

Lemma length_append (a b : string) :
  String.length (a ++ b) = (String.length a + String.length b)%nat.
Proof. induction a as [| x a IH]; simpl; [reflexivity | now rewrite IH]. Qed.

Lemma digits_value_from_app (a b : string) : forall acc,
  digits_value_from acc (a ++ b) = digits_value_from (digits_value_from acc a) b.
Proof. induction a as [| x a IH]; simpl; intros acc; [reflexivity | apply IH]. Qed.

Lemma digits_value_from_acc (s : string) : forall acc,
  digits_value_from acc s
  = acc * 10 ^ N.of_nat (String.length s) + digits_value_from 0 s.
Proof.
  induction s as [| c s IH]; intros acc.
  - simpl. lia.
  - cbn [digits_value_from String.length].
    rewrite IH, (IH (10 * 0 + digit_of c)), Nat2N.inj_succ, N.pow_succ_r'. lia.
Qed.

Lemma fixed_digits_length (w : nat) : forall n,
  String.length (fixed_digits w n) = w.
Proof.
  induction w as [| w IH]; intros n; simpl; [reflexivity |].
  rewrite length_append, IH. simpl. lia.
Qed.

Lemma fixed_digits_value (w : nat) : forall n,
  digits_value (fixed_digits w n) = n mod 10 ^ N.of_nat w.
Proof.
  unfold digits_value.
  induction w as [| w IH]; intros n.
  - simpl. now rewrite N.mod_1_r.
  - cbn [fixed_digits]. rewrite digits_value_from_app, IH. cbn [digits_value_from].
    rewrite digit_of_digit_char by (apply N.mod_lt; lia).
    rewrite Nat2N.inj_succ, N.pow_succ_r', N.Div0.mod_mul_r.
    lia.
Qed.

Lemma all_digits_app (a b : string) :
  all_digits (a ++ b) = all_digits a && all_digits b.
Proof.
  induction a as [| x a IH]; simpl; [reflexivity |].
  now rewrite IH, andb_assoc.
Qed.

Lemma all_digits_fixed (w : nat) : forall n, all_digits (fixed_digits w n) = true.
Proof.
  induction w as [| w IH]; intros n; simpl; [reflexivity |].
  rewrite all_digits_app, IH. simpl.
  rewrite is_digit_digit_char by (apply N.mod_lt; lia). reflexivity.
Qed.

Lemma strip_zeros_value (s : string) :
  digits_value (strip_zeros s) = digits_value s.
Proof.
  unfold digits_value.
  induction s as [| c s IH]; [reflexivity |].
  cbn [strip_zeros]. destruct s as [| c' s]; [reflexivity |].
  destruct (Ascii.eqb_spec c "0") as [-> | _]; [| reflexivity].
  rewrite IH. reflexivity.
Qed.

Lemma strip_zeros_all_digits (s : string) :
  all_digits s = true -> all_digits (strip_zeros s) = true.
Proof.
  induction s as [| c s IH]; [reflexivity |].
  cbn [strip_zeros]. destruct s as [| c' s]; [tauto |].
  destruct (Ascii.eqb c "0"); [| tauto].
  intros H. apply IH. cbn [all_digits] in H.
  apply andb_true_iff in H. tauto.
Qed.

Lemma strip_zeros_int_part (s : string) :
  s <> "" -> int_part_ok (strip_zeros s) = true.
Proof.
  induction s as [| c s IH]; [congruence |]. intros _.
  cbn [strip_zeros]. destruct s as [| c' s]; [reflexivity |].
  destruct (Ascii.eqb c "0") eqn:E.
  - apply IH. discriminate.
  - simpl. now rewrite E.
Qed.

Lemma pow2_le_pow10 (k : N) : 2 ^ k <= 10 ^ k.
Proof. apply N.pow_le_mono_l. lia. Qed.

Lemma digits_value_digits (n : N) : digits_value (digits n) = n.
Proof.
  unfold digits. rewrite strip_zeros_value, fixed_digits_value.
  apply N.mod_small.
  rewrite Nat2N.inj_succ, N2Nat.id, N.pow_succ_r'.
  pose proof (N.size_gt n). pose proof (pow2_le_pow10 (N.size n)). lia.
Qed.

Lemma all_digits_digits (n : N) : all_digits (digits n) = true.
Proof. apply strip_zeros_all_digits, all_digits_fixed. Qed.

Lemma int_part_ok_digits (n : N) : int_part_ok (digits n) = true.
Proof.
  apply strip_zeros_int_part. cbn [fixed_digits].
  destruct (fixed_digits _ _); discriminate.
Qed.

Lemma span_digits_app (ds rest : string) :
  all_digits ds = true ->
  match rest with String c _ => is_digit c = false | EmptyString => True end ->
  span_digits (ds ++ rest) = (ds, rest).
Proof.
  induction ds as [| c ds IH]; simpl; intros Hds Hrest.
  - destruct rest as [| c rest]; [reflexivity |]. simpl. now rewrite Hrest.
  - apply andb_true_iff in Hds. destruct Hds as [-> Hds].
    now rewrite IH.
Qed.

(** *** Powers of ten *)

Lemma Npos_pow10 (e : nat) : Npos (pow10 e) = 10 ^ N.of_nat e.
Proof.
  induction e as [| e IH]; [reflexivity |].
  rewrite Nat2N.inj_succ, N.pow_succ_r', <- IH. reflexivity.
Qed.

Lemma pow10_log_from_pow10 (e : nat) : forall fuel : nat,
  (e < fuel)%nat -> pow10_log_from fuel (10 ^ N.of_nat e) = Some e.
Proof.
  induction e as [| e IH]; intros fuel Hfuel;
    (destruct fuel as [| fuel]; [lia |]).
  - reflexivity.
  - cbn [pow10_log_from].
    rewrite Nat2N.inj_succ, N.pow_succ_r'.
    assert (Hpos : 0 < 10 ^ N.of_nat e) by (apply N.neq_0_lt_0, N.pow_nonzero; lia).
    destruct (N.eqb_spec (10 * 10 ^ N.of_nat e) 1) as [E | _]; [lia |].
    rewrite N.mul_comm, N.Div0.mod_mul, N.div_mul by lia.
    rewrite N.eqb_refl, IH by lia. reflexivity.
Qed.

Lemma pow10_log_pow10 (e : nat) : pow10_log (pow10 e) = Some e.
Proof.
  unfold pow10_log. rewrite Npos_pow10.
  apply pow10_log_from_pow10.
  assert (Hlog : N.of_nat e <= N.log2 (10 ^ N.of_nat e)).
  { rewrite <- (N.log2_pow2 (N.of_nat e)) at 1 by lia.
    apply N.log2_le_mono, pow2_le_pow10. }
  rewrite N.size_log2 by (apply N.pow_nonzero; lia). lia.
Qed.

(** *** Numbers *)

Lemma digits_head (n : N) :
  exists c s, digits n = String c s /\ is_digit c = true.
Proof.
  pose proof (all_digits_digits n) as Hall.
  pose proof (int_part_ok_digits n) as Hok.
  destruct (digits n) as [| c s]; [discriminate Hok |].
  exists c, s. split; [reflexivity |].
  simpl in Hall. apply andb_true_iff in Hall. tauto.
Qed.

Lemma ends_number_not_digit (rest : string) :
  ends_number rest ->
  match rest with String c _ => is_digit c = false | EmptyString => True end.
Proof. destruct rest; simpl; tauto. Qed.

Lemma parse_unsigned_print (a : N) (e : nat) (rest : string) :
  ends_number rest ->
  parse_unsigned
    (digits (a / 10 ^ N.of_nat e)
     ++ match e with
        | O => ""
        | S _ => "." ++ fixed_digits e (a mod 10 ^ N.of_nat e)
        end ++ rest)
  = Some (a, e, rest).
Proof.
  intros Hrest. unfold parse_unsigned.
  destruct e as [| e].
  - cbn [append].
    rewrite span_digits_app;
      [| apply all_digits_digits | now apply ends_number_not_digit ].
    rewrite int_part_ok_digits.
    change (10 ^ N.of_nat 0) with 1. rewrite N.div_1_r.
    destruct rest as [| c rest]; rewrite digits_value_digits; [reflexivity |].
    destruct Hrest as [_ Hpoint].
    destruct (Ascii.eqb_spec c "."); [contradiction | reflexivity].
  - rewrite span_digits_app; [| apply all_digits_digits | reflexivity ].
    rewrite int_part_ok_digits. cbn [append]. rewrite Ascii.eqb_refl.
    rewrite span_digits_app;
      [| apply all_digits_fixed | now apply ends_number_not_digit ].
    pose proof (fixed_digits_length (S e) (a mod 10 ^ N.of_nat (S e))) as Hlen.
    pose proof (fixed_digits_value (S e) (a mod 10 ^ N.of_nat (S e))) as Hval.
    unfold digits_value in *.
    rewrite digits_value_from_app, digits_value_from_acc, Hval, Hlen.
    fold (digits_value (digits (a / 10 ^ N.of_nat (S e)))).
    rewrite digits_value_digits, N.Div0.mod_mod.
    destruct (fixed_digits (S e) _) as [| c fp]; [discriminate Hlen |].
    do 3 f_equal.
    pose proof (N.div_mod a (10 ^ N.of_nat (S e))) as Hdm.
    assert (10 ^ N.of_nat (S e) <> 0) by (apply N.pow_nonzero; lia).
    lia.
Qed.

Lemma is_digit_not_minus (c : ascii) : is_digit c = true -> Ascii.eqb c "-" = false.
Proof.
  intros H. destruct (Ascii.eqb_spec c "-") as [-> | _]; [discriminate H | reflexivity].
Qed.

Lemma parse_number_print (n : Z) (e : nat) (rest : string) :
  ends_number rest ->
  parse_number (print_number (n # pow10 e) ++ rest) = Some (n # pow10 e, rest).
Proof.
  intros Hrest. unfold print_number. cbn [Qden Qnum].
  rewrite pow10_log_pow10, Npos_pow10.
  set (a := Z.to_N (Z.abs n)).
  pose proof (parse_unsigned_print a e rest Hrest) as Hparse.
  rewrite !append_assoc.
  destruct (Z.ltb_spec n 0) as [Hneg | Hpos].
  - cbn [append parse_number] in Hparse |- *. rewrite Ascii.eqb_refl, Hparse.
    cbn [signed]. do 3 f_equal. unfold a. lia.
  - cbn [append] in Hparse |- *.
    destruct (digits_head (a / 10 ^ N.of_nat e)) as (c & s & Hd & Hc).
    rewrite Hd in *. cbn [append parse_number] in *.
    rewrite (is_digit_not_minus c Hc), Hparse.
    cbn [signed]. do 3 f_equal. unfold a. lia.
Qed.

Lemma print_number_head (n : Z) (e : nat) :
  exists c s,
    print_number (n # pow10 e) = String c s /\
    (is_digit c || Ascii.eqb c "-") = true /\ is_ws c = false.
Proof.
  unfold print_number. cbn [Qden Qnum]. rewrite pow10_log_pow10.
  destruct (n <? 0)%Z.
  - eexists; eexists. split; [reflexivity |]. split; reflexivity.
  - destruct (digits_head (Z.to_N (Z.abs n) / N.pos (pow10 e)))
      as (c & s & -> & Hc).
    eexists; eexists. split; [reflexivity |].
    rewrite Hc. split; [reflexivity |]. now apply is_digit_not_ws.
Qed.

(** *** Strings *)

Lemma parse_chars_escape_char (c : ascii) (t : string) :
  parse_chars (escape_char c ++ t) = cons_char c (parse_chars t).
Proof.
  destruct c as [[] [] [] [] [] [] [] []]; reflexivity.
Qed.

Lemma parse_chars_escape (s rest : string) :
  parse_chars (escape s ++ String dquote rest) = Some (s, rest).
Proof.
  induction s as [| c s IH]; [reflexivity |].
  cbn [escape]. rewrite append_assoc, parse_chars_escape_char, IH.
  reflexivity.
Qed.

Lemma parse_chars_quote (s rest : string) :
  parse_chars (behead (quote s ++ rest)) = Some (s, rest).
Proof.
  unfold quote. cbn [append behead].
  rewrite append_assoc. apply parse_chars_escape.
Qed.

(** *** Values *)

Lemma jsval_induction (P : jsval -> Prop) :
  P JNull -> (forall b, P (JBool b)) -> (forall q, P (JNum q)) ->
  (forall s, P (JStr s)) ->
  (forall l, Forall P l -> P (JArr l)) ->
  (forall o, Forall (fun kv => P (snd kv)) o -> P (JObj o)) ->
  forall v, P v.
Proof.
  intros Hnull Hbool Hnum Hstr Harr Hobj.
  fix IH 1. intros [| b | q | s | l | o].
  - exact Hnull.
  - apply Hbool.
  - apply Hnum.
  - apply Hstr.
  - apply Harr. induction l as [| v l IHl]; constructor; [apply IH | exact IHl].
  - apply Hobj. induction o as [| [k v] o IHo]; constructor; [apply IH | exact IHo].
Qed.

Lemma starts_value_facts (c : ascii) :
  starts_value c = true ->
  is_ws c = false /\ Ascii.eqb c "]" = false /\ Ascii.eqb c "}" = false.
Proof.
  destruct c as [[] [] [] [] [] [] [] []]; intros H;
    solve [repeat split | discriminate H].
Qed.

Lemma stringify_member (o : object) :
  map (fun kv => quote (fst kv) ++ ":" ++ stringify (snd kv)) o = map member o.
Proof. reflexivity. Qed.

Lemma stringify_head (v : jsval) :
  wf v -> exists c s, stringify v = String c s /\ starts_value c = true.
Proof.
  intros Hwf. destruct Hwf as [| [] | [n d] e Hd | s | l _ | o _ _];
    try (eexists; eexists; split; reflexivity).
  simpl in Hd. subst d.
  destruct (print_number_head n e) as (c & s & Hs & Hc & _).
  exists c, s. split; [exact Hs |].
  unfold starts_value. rewrite Hc. reflexivity.
Qed.

Lemma skip_ws_head (c : ascii) (s : string) :
  is_ws c = false -> skip_ws (String c s) = String c s.
Proof. intros H. simpl. now rewrite H. Qed.

Lemma join_cons (sep s : string) (rest : list string) :
  rest <> [] -> join sep (s :: rest) = s ++ sep ++ join sep rest.
Proof. destruct rest; [congruence | reflexivity]. Qed.

Lemma join_length_elem (sep : string) (l : list string) (s : string) :
  In s l -> (String.length s <= String.length (join sep l))%nat.
Proof.
  induction l as [| a l IH]; [contradiction |].
  intros Hin. destruct l as [| b l].
  - destruct Hin as [-> | []]. simpl. lia.
  - rewrite join_cons by discriminate. rewrite !length_append.
    destruct Hin as [-> | Hin]; [lia |].
    specialize (IH Hin). lia.
Qed.

Lemma join_length_count (sep : string) (l : list string) :
  Forall (fun s => (1 <= String.length s)%nat) l ->
  (length l <= String.length (join sep l))%nat.
Proof.
  induction 1 as [| a l Ha Hl IH]; [simpl; lia |].
  destruct l as [| b l].
  - simpl. lia.
  - rewrite join_cons by discriminate. rewrite !length_append.
    cbn [length] in *. lia.
Qed.

Section Loops.

Variable parse_one : string -> option (jsval * string).

Lemma parse_elements_join (l : list jsval) :
  l <> [] -> Forall (reads parse_one) l ->
  forall (n : nat) (rest : string),
    (length l <= n)%nat ->
    parse_elements parse_one n
      (join "," (map stringify l) ++ String "]" rest)
    = Some (l, rest).
Proof.
  induction l as [| v l IH]; [congruence |].
  intros _ Hall n rest Hn.
  inversion Hall as [| ? ? Hv Hl]; subst.
  destruct n as [| n]; [simpl in Hn; lia |].
  destruct l as [| v' l].
  - cbn [map join parse_elements].
    rewrite Hv by (split; [reflexivity | discriminate]).
    reflexivity.
  - cbn [map]. rewrite join_cons by discriminate.
    rewrite !append_assoc. cbn [parse_elements].
    rewrite Hv by (split; [reflexivity | discriminate]).
    cbn [append skip_ws is_ws Ascii.eqb Bool.eqb orb].
    change (map stringify (v' :: l)) with (stringify v' :: map stringify l) in IH.
    rewrite IH; [reflexivity | discriminate | assumption |].
    cbn [length] in *. lia.
Qed.

Lemma parse_members_step (n : nat) (k : string) (v : jsval)
      (t : string) (acc : object) :
  reads parse_one v -> ends_number t ->
  parse_members parse_one (S n) (member (k, v) ++ t) acc
  = match skip_ws t with
    | String d r4 =>
        if Ascii.eqb d ","
        then parse_members parse_one n r4 (obj_set acc k v)
        else if Ascii.eqb d "}" then Some (obj_set acc k v, r4)
        else None
    | EmptyString => None
    end.
Proof.
  intros Hv Ht.
  replace (member (k, v) ++ t)
    with (String dquote
            (escape k ++ String dquote (String ":" (stringify v ++ t)))).
  2: { unfold member, quote. cbn [fst snd append].
       now rewrite !append_assoc. }
  cbn [parse_members]. rewrite skip_ws_head by reflexivity.
  rewrite Ascii.eqb_refl, parse_chars_escape.
  rewrite skip_ws_head by reflexivity.
  rewrite Ascii.eqb_refl, Hv by assumption. reflexivity.
Qed.

Lemma parse_members_join (o : object) :
  o <> [] -> Forall (fun kv => reads parse_one (snd kv)) o ->
  forall (n : nat) (rest : string) (acc : object),
    (length o <= n)%nat ->
    parse_members parse_one n
      (join "," (map member o) ++ String "}" rest) acc
    = Some (fold_left (fun a kv => obj_set a (fst kv) (snd kv)) o acc, rest).
Proof.
  induction o as [| [k v] o IH]; [congruence |].
  intros _ Hall n rest acc Hn.
  inversion Hall as [| ? ? Hv Ho]; subst. cbn [snd] in Hv.
  destruct n as [| n]; [simpl in Hn; lia |].
  destruct o as [| kv' o].
  - cbn [map join].
    rewrite parse_members_step;
      [| assumption | split; [reflexivity | discriminate] ].
    reflexivity.
  - cbn [map]. rewrite join_cons by discriminate.
    rewrite !append_assoc.
    rewrite parse_members_step;
      [| assumption | split; [reflexivity | discriminate] ].
    cbn [append skip_ws is_ws Ascii.eqb Bool.eqb orb].
    change (map member (kv' :: o)) with (member kv' :: map member o) in IH.
    rewrite IH; [reflexivity | discriminate | assumption |].
    cbn [length] in *. lia.
Qed.

End Loops.

Lemma stringify_length (v : jsval) :
  wf v -> (1 <= String.length (stringify v))%nat.
Proof.
  intros Hwf. destruct (stringify_head v Hwf) as (c & s & -> & _).
  simpl. lia.
Qed.

Lemma member_length (kv : string * jsval) :
  (String.length (stringify (snd kv)) + 3 <= String.length (member kv))%nat.
Proof.
  unfold member, quote. cbn [String.length append].
  rewrite !length_append. cbn [String.length]. lia.
Qed.

Lemma closes_starts_value (c : ascii) (s : string) (close : ascii) :
  starts_value c = true -> close = "]"%char \/ close = "}"%char ->
  skip_ws (String c s) = String c s /\ closes close (String c s) = false.
Proof.
  intros Hc Hclose. destruct (starts_value_facts c Hc) as (Hws & Hb & Hbr).
  split; [now apply skip_ws_head |].
  destruct Hclose as [-> | ->]; assumption.
Qed.

Lemma fold_obj_set_nodup (o : object) :
  NoDup (keys o) ->
  fold_left (fun a kv => obj_set a (fst kv) (snd kv)) o [] = o.
Proof.
  intros Hnd.
  rewrite (fold_obj_set_fresh (fun v => v)) by (auto; intros k _ []).
  cbn [List.app]. rewrite <- (map_id o) at 2. apply map_ext. now intros [k v].
Qed.

Lemma parse_value_array (fuel : nat) (t : string) :
  parse_value (S fuel) (String "[" t)
  = if closes "]" (skip_ws t) then Some (JArr [], behead (skip_ws t))
    else tagged JArr (parse_elements (parse_value fuel) fuel t).
Proof. reflexivity. Qed.

Lemma parse_value_object (fuel : nat) (t : string) :
  parse_value (S fuel) (String "{" t)
  = if closes "}" (skip_ws t) then Some (JObj [], behead (skip_ws t))
    else tagged JObj (parse_members (parse_value fuel) fuel t []).
Proof. reflexivity. Qed.

Lemma parse_value_string (fuel : nat) (t : string) :
  parse_value (S fuel) (String dquote t) = tagged JStr (parse_chars t).
Proof. reflexivity. Qed.

Lemma parse_value_stringify (v : jsval) :
  wf v ->
  forall (fuel : nat) (rest : string),
    (String.length (stringify v) <= fuel)%nat -> ends_number rest ->
    parse_value fuel (stringify v ++ rest) = Some (v, rest).
Proof.
  induction v as [| b | q | s | l IH | o IH] using jsval_induction;
    intros Hwf fuel rest Hfuel Hrest.
  - destruct fuel as [| fuel]; [simpl in Hfuel; lia | reflexivity].
  - destruct fuel as [| fuel]; [destruct b; simpl in Hfuel; lia |].
    destruct b; reflexivity.
  - inversion Hwf as [| | q' e Hd | | |]; subst q'.
    destruct q as [n d]. simpl in Hd. subst d.
    destruct (print_number_head n e) as (c & s & Hs & Hc & Hws).
    destruct fuel as [| fuel];
      [cbn [stringify] in Hfuel; rewrite Hs in Hfuel; simpl in Hfuel; lia |].
    cbn [stringify parse_value]. rewrite Hs. cbn [append].
    rewrite skip_ws_head, Hc by assumption.
    change (String c (s ++ rest)) with (String c s ++ rest).
    rewrite <- Hs, parse_number_print by assumption. reflexivity.
  - destruct fuel as [| fuel]; [simpl in Hfuel; lia |].
    cbn [stringify quote append].
    rewrite parse_value_string, append_assoc.
    cbn [append]. rewrite parse_chars_escape. reflexivity.
  - inversion Hwf as [| | | | l' Hall |]; subst l'.
    destruct fuel as [| fuel]; [simpl in Hfuel; lia |].
    cbn [stringify append String.length] in Hfuel |- *.
    rewrite length_append in Hfuel. cbn [String.length] in Hfuel.
    rewrite append_assoc. cbn [append]. rewrite parse_value_array.
    destruct l as [| v l]; [reflexivity |].
    assert (Hhead : exists c s, join "," (map stringify (v :: l)) ++ String "]" rest
                                = String c s /\ starts_value c = true).
    { inversion Hall as [| ? ? Hv _]; subst.
      destruct (stringify_head v Hv) as (c & s & Hs & Hc).
      destruct l as [| v' l]; cbn [map join]; rewrite Hs;
        eexists; eexists; (split; [reflexivity | exact Hc]). }
    destruct Hhead as (c & s & Hs & Hc).
    destruct (closes_starts_value c s "]" Hc) as [Hskip Hclose]; [now left |].
    rewrite Hs, Hskip, Hclose, <- Hs.
    rewrite (parse_elements_join (parse_value fuel)); [reflexivity | discriminate | |].
    + apply Forall_forall. intros w Hin t Ht.
      rewrite Forall_forall in IH, Hall. apply IH; auto.
      pose proof (join_length_elem "," (map stringify (v :: l)) (stringify w)
                    (in_map stringify _ _ Hin)). lia.
    + pose proof (join_length_count "," (map stringify (v :: l))) as Hcount.
      rewrite length_map in Hcount.
      assert (Forall (fun s => (1 <= String.length s)%nat)
                     (map stringify (v :: l))).
      { apply Forall_forall. intros t Hin. apply in_map_iff in Hin.
        destruct Hin as (w & <- & Hw). apply stringify_length.
        rewrite Forall_forall in Hall. auto. }
      specialize (Hcount H). lia.
  - inversion Hwf as [| | | | | o' Hnd Hall]; subst o'.
    destruct fuel as [| fuel]; [simpl in Hfuel; lia |].
    cbn [stringify] in Hfuel |- *. rewrite stringify_member in *.
    cbn [append String.length] in Hfuel |- *.
    rewrite length_append in Hfuel. cbn [String.length] in Hfuel.
    rewrite append_assoc. cbn [append]. rewrite parse_value_object.
    destruct o as [| kv o]; [reflexivity |].
    assert (Hhead : exists c s, join "," (map member (kv :: o)) ++ String "}" rest
                                = String c s /\ starts_value c = true).
    { destruct o as [| kv' o]; cbn [map join]; unfold member at 1, quote;
        cbn [append]; eexists; eexists; (split; reflexivity). }
    destruct Hhead as (c & s & Hs & Hc).
    destruct (closes_starts_value c s "}" Hc) as [Hskip Hclose]; [now right |].
    rewrite Hs, Hskip, Hclose, <- Hs.
    rewrite (parse_members_join (parse_value fuel)).
    + rewrite fold_obj_set_nodup by assumption. reflexivity.
    + discriminate.
    + apply Forall_forall. intros w Hin t Ht.
      rewrite Forall_forall in IH, Hall. apply IH; auto.
      pose proof (join_length_elem "," (map member (kv :: o)) (member w)
                    (in_map member _ _ Hin)).
      pose proof (member_length w). lia.
    + pose proof (join_length_count "," (map member (kv :: o))) as Hcount.
      rewrite length_map in Hcount.
      assert (Forall (fun s => (1 <= String.length s)%nat)
                     (map member (kv :: o))).
      { apply Forall_forall. intros t Hin. apply in_map_iff in Hin.
        destruct Hin as (w & <- & Hw). pose proof (member_length w). lia. }
      specialize (Hcount H). lia.
Qed.

(** A well-formed value, printed, parses to itself. *)
Lemma parse_stringify (v : jsval) : wf v -> parse (stringify v) = Some v.
Proof.
  intros Hwf. unfold parse.
  rewrite <- (append_nil_r (stringify v)) at 2.
  rewrite parse_value_stringify; [reflexivity | assumption | lia | exact I].
Qed.

(** *** What the parser returns is well formed *)

Lemma parse_number_wf (s rest : string) (q : Q) :
  parse_number s = Some (q, rest) -> exists e, Qden q = pow10 e.
Proof.
  unfold parse_number. destruct s as [| c s]; [discriminate |].
  destruct (Ascii.eqb c "-");
    [destruct (parse_unsigned s) as [[[m e] r] |]
    | destruct (parse_unsigned (String c s)) as [[[m e] r] |]];
    cbn [signed]; intros H; inversion H; subst; exists e; reflexivity.
Qed.

Lemma expect_value (word rest r : string) (v0 v : jsval) :
  expect word rest v0 = Some (v, r) -> v = v0.
Proof.
  revert rest. induction word as [| c word IH]; intros rest; simpl.
  - now intros [= <- _].
  - destruct rest as [| d rest]; [discriminate |].
    destruct (Ascii.eqb c d); [apply IH | discriminate].
Qed.

Lemma keys_obj_set (o : object) (key : string) (v : jsval) :
  keys (obj_set o key v) = if existsb (String.eqb key) (keys o)
                           then keys o else (keys o ++ [key])%list.
Proof.
  induction o as [| [k w] o IH]; simpl; [reflexivity |].
  rewrite (String.eqb_sym key k).
  destruct (String.eqb k key); simpl; [reflexivity |].
  rewrite IH. destruct (existsb _ _); reflexivity.
Qed.

Lemma obj_set_nodup (o : object) (key : string) (v : jsval) :
  NoDup (keys o) -> NoDup (keys (obj_set o key v)).
Proof.
  intros Hnd. rewrite keys_obj_set.
  destruct (existsb (String.eqb key) (keys o)) eqn:E; [assumption |].
  apply NoDup_app; [assumption | repeat constructor; simpl; tauto |].
  intros k Hin [Hk | []]. subst k.
  assert (existsb (String.eqb key) (keys o) = true); [| congruence].
  apply existsb_exists. exists key. split; [assumption | apply String.eqb_refl].
Qed.

Lemma obj_set_forall (P : jsval -> Prop) (o : object) (key : string) (v : jsval) :
  Forall (fun kv => P (snd kv)) o -> P v ->
  Forall (fun kv => P (snd kv)) (obj_set o key v).
Proof.
  intros Ho Hv. induction Ho as [| [k w] o Hw Ho IH]; simpl.
  - repeat constructor. assumption.
  - destruct (String.eqb k key); constructor; assumption.
Qed.

Section LoopsWf.

Variable parse_one : string -> option (jsval * string).
Hypothesis parse_one_wf :
  forall s v r, parse_one s = Some (v, r) -> wf v.

Lemma parse_elements_wf (n : nat) : forall s l r,
  parse_elements parse_one n s = Some (l, r) -> Forall wf l.
Proof.
  induction n as [| n IH]; intros s l r; [discriminate |].
  cbn [parse_elements].
  destruct (parse_one s) as [[v r1] |] eqn:Hv; [| discriminate].
  apply parse_one_wf in Hv.
  destruct (skip_ws r1) as [| c r2]; [discriminate |].
  destruct (Ascii.eqb c ",").
  - destruct (parse_elements parse_one n r2) as [[vs r3] |] eqn:Hvs;
      [| discriminate].
    intros [= <- _]. constructor; [assumption | eapply IH; eassumption].
  - destruct (Ascii.eqb c "]"); [| discriminate].
    intros [= <- _]. repeat constructor. assumption.
Qed.

Lemma parse_members_wf (n : nat) : forall s acc o r,
  NoDup (keys acc) -> Forall (fun kv => wf (snd kv)) acc ->
  parse_members parse_one n s acc = Some (o, r) ->
  NoDup (keys o) /\ Forall (fun kv => wf (snd kv)) o.
Proof.
  induction n as [| n IH]; intros s acc o r Hnd Hall; [discriminate |].
  cbn [parse_members].
  destruct (skip_ws s) as [| q r0]; [discriminate |].
  destruct (Ascii.eqb q dquote); [| discriminate].
  destruct (parse_chars r0) as [[key r1] |]; [| discriminate].
  destruct (skip_ws r1) as [| c r2]; [discriminate |].
  destruct (Ascii.eqb c ":"); [| discriminate].
  destruct (parse_one r2) as [[v r3] |] eqn:Hv; [| discriminate].
  apply parse_one_wf in Hv.
  destruct (skip_ws r3) as [| d r4]; [discriminate |].
  destruct (Ascii.eqb d ",").
  - apply IH; [now apply obj_set_nodup | now apply obj_set_forall].
  - destruct (Ascii.eqb d "}"); [| discriminate].
    intros [= <- _].
    split; [now apply obj_set_nodup | now apply obj_set_forall].
Qed.

End LoopsWf.

Lemma tagged_some {A : Type} (f : A -> jsval) (r : option (A * string))
      (v : jsval) (rest : string) :
  tagged f r = Some (v, rest) -> exists a, r = Some (a, rest) /\ v = f a.
Proof.
  destruct r as [[a t] |]; simpl; [| discriminate].
  intros [= <- <-]. eauto.
Qed.

Lemma parse_value_wf (fuel : nat) : forall s v rest,
  parse_value fuel s = Some (v, rest) -> wf v.
Proof.
  induction fuel as [| fuel IH]; intros s v rest; [discriminate |].
  cbn [parse_value].
  destruct (skip_ws s) as [| c t]; [discriminate |].
  destruct (is_digit c || Ascii.eqb c "-").
  { intros H. apply tagged_some in H. destruct H as (q & Hq & ->).
    apply parse_number_wf in Hq. destruct Hq as [e He].
    econstructor; eassumption. }
  destruct (Ascii.eqb c dquote).
  { intros H. apply tagged_some in H. destruct H as (str & _ & ->).
    constructor. }
  destruct (Ascii.eqb c "[").
  { destruct (closes "]" (skip_ws t)).
    - intros [= <- _]. repeat constructor.
    - intros H. apply tagged_some in H. destruct H as (l & Hl & ->).
      constructor. eapply parse_elements_wf; [exact IH | exact Hl]. }
  destruct (Ascii.eqb c "{").
  { destruct (closes "}" (skip_ws t)).
    - intros [= <- _]. repeat constructor.
    - intros H. apply tagged_some in H. destruct H as (o & Ho & ->).
      eapply parse_members_wf in Ho; [| exact IH | constructor | constructor].
      constructor; tauto. }
  destruct (Ascii.eqb c "n");
    [intros H; apply expect_value in H; subst; constructor |].
  destruct (Ascii.eqb c "t");
    [intros H; apply expect_value in H; subst; constructor |].
  destruct (Ascii.eqb c "f");
    [intros H; apply expect_value in H; subst; constructor |].
  discriminate.
Qed.

Lemma parse_wf (text : string) (v : jsval) : parse text = Some v -> wf v.
Proof.
  unfold parse.
  destruct (parse_value _ text) as [[w rest] |] eqn:H; [| discriminate].
  destruct (skip_ws rest); [| discriminate].
  intros [= <-]. eapply parse_value_wf; eassumption.
Qed.

(** The round trip of the built-ins: a parsed value, printed, parses to
    itself. *)
Lemma parse_stringify_parse (text : string) (v : jsval) :
  parse text = Some v -> parse (stringify v) = Some v.
Proof. intros H. apply parse_stringify. eapply parse_wf; eassumption. Qed.

(** *** The length of a printed value *)

Lemma escape_length_spec (s : string) :
  String.length (escape s) = escape_length s.
Proof.
  induction s as [| c s IH]; [reflexivity |].
  cbn [escape escape_length]. now rewrite length_append, IH.
Qed.

Lemma quote_length (s : string) :
  String.length (quote s) = (2 + escape_length s)%nat.
Proof.
  unfold quote. cbn [String.length].
  rewrite length_append, escape_length_spec. simpl. lia.
Qed.

Lemma join_length (l : list string) :
  l <> [] ->
  (String.length (join "," l) + 1)%nat
  = fold_right (fun n acc => (n + 1 + acc)%nat) O (map String.length l).
Proof.
  induction l as [| s l IH]; [congruence |]. intros _.
  destruct l as [| s' l].
  - simpl. lia.
  - rewrite join_cons by discriminate.
    rewrite !length_append. cbn [map fold_right String.length] in *.
    rewrite <- IH by discriminate. lia.
Qed.

Lemma bracketed_length (l : list string) (close rest : string) :
  String.length close = 1%nat ->
  String.length (join "," l ++ close)
  = items_length (map String.length l).
Proof.
  intros Hclose. rewrite length_append, Hclose.
  destruct l as [| s l]; [reflexivity |].
  rewrite join_length by discriminate. reflexivity.
Qed.

Lemma text_length_spec (v : jsval) :
  String.length (stringify v) = text_length v.
Proof.
  induction v as [| b | q | s | l IH | o IH] using jsval_induction.
  - reflexivity.
  - destruct b; reflexivity.
  - reflexivity.
  - apply quote_length.
  - cbn [stringify text_length append String.length Nat.add].
    rewrite (bracketed_length _ "]" "") by reflexivity.
    do 2 f_equal. rewrite map_map. apply map_ext_in. intros v Hin.
    rewrite Forall_forall in IH. now apply IH.
  - cbn [stringify text_length append String.length Nat.add].
    rewrite (bracketed_length _ "}" "") by reflexivity.
    do 2 f_equal. rewrite map_map. apply map_ext_in. intros kv Hin.
    rewrite Forall_forall in IH.
    rewrite length_append, quote_length. cbn [append String.length].
    rewrite (IH kv Hin). lia.
Qed.

End JsonFacts.

(** ** The minified export against the regular export *)

Lemma json_host_law (toJSON : App -> string) :
  parse_stringify_law (json_host toJSON).
Proof. intros text v. apply JsonFacts.parse_stringify_parse. Qed.

Lemma demo_host_law : parse_stringify_law demo_host.
Proof. apply json_host_law. Qed.

(** C3.  Given JSON built-ins under which a parsed value, serialized,
    parses to itself: the regular export hands out the text [r] of
    [Stage.toJSON]; when the minified export ends normally it hands out a
    text [m] that parses to the very value [r] parses to; and it fails,
    leaving the state as it was, only when [r] itself does not parse. *)
Theorem minified_parses_as_regular (host : Host) (st : App) :
  parse_stringify_law host ->
  exists r : string,
    last_download (snd (runState handleRegularExport st))
    = Some ("stage-regular.json", r) /\
    match fst (runState handleMinifiedExport st) with
    | inr _ =>
        exists m : string,
          last_download (snd (runState handleMinifiedExport st))
          = Some ("stage-minified.json", m) /\
          JSON_parse m = JSON_parse r /\ JSON_parse r <> None
    | inl _ =>
        JSON_parse r = None /\ snd (runState handleMinifiedExport st) = st
    end.
Proof.
  intros law. exists (regularJson st).
  rewrite run_handleRegularExport, run_handleMinifiedExport,
    run_downloadAndShowSize.
  unfold last_download, minifiedJson, regularJson.
  cbn [snd downloads]. rewrite map_app. cbn [map]. rewrite last_last.
  split; [reflexivity |].
  destruct (JSON_parse (Stage_toJSON st)) as [v |] eqn:Hparse; cbn [fst snd].
  - exists (JSON_stringify v). rewrite run_downloadAndShowSize.
    cbn [snd downloads]. rewrite map_app. cbn [map]. rewrite last_last.
    split; [reflexivity |]. split; [| discriminate].
    eapply law. eassumption.
  - split; reflexivity.
Qed.

Lemma minified_parses_as_regular_witness :
  exists r : string,
    last_download (snd (runState (@handleRegularExport demo_host) demo_app))
    = Some ("stage-regular.json", r) /\
    match fst (runState (@handleMinifiedExport demo_host) demo_app) with
    | inr _ =>
        exists m : string,
          last_download (snd (runState (@handleMinifiedExport demo_host) demo_app))
          = Some ("stage-minified.json", m) /\
          @JSON_parse demo_host m = @JSON_parse demo_host r /\
          @JSON_parse demo_host r <> None
    | inl _ =>
        @JSON_parse demo_host r = None /\
        snd (runState (@handleMinifiedExport demo_host) demo_app) = demo_app
    end.
Proof.
  apply (minified_parses_as_regular demo_host demo_app).
  exact demo_host_law.
Defined.

(** On the scenario the minified export does end normally, with the text
    of the regular export. *)
Example minified_export_of_scenario :
  fst (runState (@handleMinifiedExport demo_host) demo_app) = inr tt /\
  option_map snd
    (last_download (snd (runState (@handleMinifiedExport demo_host) demo_app)))
  = Some (Json.stringify (stage_node demo_app)).
Proof. vm_compute. split; reflexivity. Qed.

(** ** Decoding *)

(** The decoder gives back what the optimized export wrote of a shape
    whose tag names one kind. *)
Example decode_optimized_scenario :
  option_map (map (fun s => (id s, x s, y s, fill s, rotation s, type s)))
             (match decodeOptimized (optimizedPayload scenario) with
              | inr shapes => Some shapes
              | inl _ => None
              end)
  = Some (map (fun s => (id s, x s, y s, fill s, rotation s, type s)) scenario).
Proof. reflexivity. Qed.

Lemma field_v_payload_with_version (version : jsval) (shapes : list shape) :
  field "v" (payload_with_version version shapes) = Some version.
Proof. reflexivity. Qed.

(** C6.  A payload whose version field is not the number 1 (a missing
    field, a value that is not a number, or another number) fails to
    decode with UnsupportedVersionError, so no collection comes back, not
    even a part of one; this is so for the optimized payload of any
    collection with its version replaced by the string "99" or by the
    number 99. *)
Theorem decode_rejects_unknown_version (payload : jsval) :
  (forall q : Q, field "v" payload = Some (JNum q) -> ~ (q == 1)%Q) ->
  decodeOptimized payload = inl UnsupportedVersionError /\
  (forall shapes : list shape,
     decodeOptimized (payload_with_version (JStr "99") shapes)
     = inl UnsupportedVersionError /\
     decodeOptimized (payload_with_version (num 99) shapes)
     = inl UnsupportedVersionError).
Proof.
  intros Hv. split; [| intros shapes; split; reflexivity].
  unfold decodeOptimized.
  destruct (field "v" payload) as [[| b | q | s | l | o] |]; try reflexivity.
  destruct (Qeq_bool q 1) eqn:E; [| reflexivity].
  apply Qeq_bool_iff in E. exfalso. exact (Hv q eq_refl E).
Qed.

Lemma decode_rejects_unknown_version_witness :
  decodeOptimized (payload_with_version (JStr "99") scenario)
  = inl UnsupportedVersionError /\
  (forall shapes : list shape,
     decodeOptimized (payload_with_version (JStr "99") shapes)
     = inl UnsupportedVersionError /\
     decodeOptimized (payload_with_version (num 99) shapes)
     = inl UnsupportedVersionError).
Proof.
  apply (decode_rejects_unknown_version (payload_with_version (JStr "99") scenario)).
  intros q H. discriminate H.
Defined.

(** ** The texts of the optimized and the compressed export *)

Create HintDb json_wf.

Lemma wf_num (z : Z) : Json.wf (num z).
Proof. apply (Json.wf_num _ 0). reflexivity. Qed.

Lemma wf_opacity : Json.wf (JNum (75 # 100)).
Proof. apply (Json.wf_num _ 2). reflexivity. Qed.

#[local] Hint Resolve wf_num wf_opacity Json.wf_str Json.wf_null Json.wf_bool
  : json_wf.

Ltac distinct_keys :=
  repeat (constructor; [simpl; intuition discriminate |]); constructor.

(** An object literal: distinct keys, and every value well formed. *)
Ltac wf_object :=
  apply Json.wf_obj;
  [ distinct_keys
  | repeat (apply Forall_cons; [cbn [snd]; auto with json_wf |]);
    apply Forall_nil ].

Lemma wf_COMMON_PROPS : Json.wf (JObj COMMON_PROPS).
Proof. wf_object. Qed.

Lemma wf_SHAPE_DEFAULTS : Json.wf (JObj SHAPE_DEFAULTS).
Proof.
  apply Json.wf_obj; [distinct_keys |].
  repeat (apply Forall_cons; [cbn [snd]; wf_object |]). apply Forall_nil.
Qed.

#[local] Hint Resolve wf_COMMON_PROPS wf_SHAPE_DEFAULTS : json_wf.

Lemma wf_optimizedShape (s : shape) : Json.wf (optimizedShape s).
Proof. wf_object. Qed.

Lemma wf_compressedFrom (shapes : list shape) : forall lastX lastY,
  Forall Json.wf (compressedFrom lastX lastY shapes).
Proof.
  induction shapes as [| s rest IH]; intros lastX lastY; simpl; constructor.
  - wf_object.
  - apply IH.
Qed.

Lemma wf_payload (entries : list jsval) :
  Forall Json.wf entries ->
  Json.wf (JObj [ ("v", num 1); ("c", JObj COMMON_PROPS);
                  ("d", JObj SHAPE_DEFAULTS); ("s", JArr entries) ]).
Proof.
  intros Hall. assert (Json.wf (JArr entries)) by now constructor.
  wf_object.
Qed.

(** With the JSON implementation as host, the text either export writes
    parses to the payload it was made from. *)
Lemma export_texts_parse (st : App) :
  Json.parse (@optimizedJson demo_host st) = Some (optimizedPayload (shapes st)) /\
  Json.parse (@compressedJson demo_host st) = Some (compressedPayload (shapes st)).
Proof.
  split; apply JsonFacts.parse_stringify, wf_payload.
  - unfold optimizedShapes. apply Forall_forall. intros e Hin.
    apply in_map_iff in Hin. destruct Hin as (s & <- & _).
    apply wf_optimizedShape.
  - apply wf_compressedFrom.
Qed.

(** ** The sizes of the exports *)

Lemma wf_scaleValue (size : Z) (v : jsval) :
  Json.wf v -> Json.wf (scaleValue size v).
Proof.
  intros Hwf. destruct Hwf as [| b | [n d] e Hd | s | l Hl | o Hnd Ho];
    try (now constructor).
  simpl in Hd. subst d. apply (Json.wf_num _ (S (S e))).
  cbn [scaleValue Qdiv Qmult Qinv Qnum Qden inject_Z Json.pow10]. lia.
Qed.

Lemma wf_Forall_app (a b : object) :
  Forall (fun kv => Json.wf (snd kv)) a ->
  Forall (fun kv => Json.wf (snd kv)) b ->
  Forall (fun kv => Json.wf (snd kv)) (a ++ b).
Proof. intros Ha Hb. apply Forall_app. now split. Qed.

(** The attributes the generator gives a shape are well formed and their
    keys, with the six base keys before and [draggable] after, are
    distinct. *)
Lemma wf_shape_node (s : shape) :
  In (type s) shapeTypes -> shape_built s -> Json.wf (shape_node s).
Proof.
  intros Hkind (size & template & _ & Htemplate & Hattrs).
  assert (Hscaled : forall q, Json.wf (scaleValue size (num q)))
    by (intros q; apply wf_scaleValue, wf_num).
  unfold shape_node. rewrite Hattrs.
  unfold shapeTypes in Hkind. simpl in Hkind.
  repeat (destruct Hkind as [Hk | Hkind];
          [rewrite <- Hk in *; injection Htemplate as <- |]);
    try contradiction;
    (apply Json.wf_obj;
     [ distinct_keys
     | apply Forall_cons;
       [ cbn [snd map List.app fst COMMON_PROPS];
         apply Json.wf_obj;
         [ distinct_keys
         | repeat (apply Forall_cons;
                   [cbn [snd scaleValue]; auto with json_wf |]);
           apply Forall_nil ]
       | apply Forall_cons; [cbn [snd]; auto with json_wf | apply Forall_nil] ] ]).
Qed.

Lemma wf_stage_node (st : App) :
  Forall (fun s => In (type s) shapeTypes /\ shape_built s) (shapes st) ->
  Json.wf (stage_node st).
Proof.
  intros Hall.
  assert (Hnodes : Json.wf (JArr (map shape_node (shapes st)))).
  { constructor. apply Forall_forall. intros e Hin.
    apply in_map_iff in Hin. destruct Hin as (s & <- & Hs).
    rewrite Forall_forall in Hall. destruct (Hall s Hs).
    now apply wf_shape_node. }
  assert (Hscale : Json.wf (JNum SCALE))
    by (apply (Json.wf_num _ 1); reflexivity).
  assert (Hempty : Json.wf (JObj [])) by (constructor; constructor).
  assert (Hlayer : Json.wf (JArr [ JObj [ ("attrs", JObj []);
                                         ("className", JStr "Layer");
                                         ("children",
                                          JArr (map shape_node (shapes st))) ] ])).
  { constructor. apply Forall_cons; [wf_object | apply Forall_nil]. }
  assert (Hattrs : Json.wf (JObj [ ("width", num 800); ("height", num 800);
                                  ("scaleX", JNum SCALE); ("scaleY", JNum SCALE);
                                  ("draggable", JBool true) ]))
    by wf_object.
  unfold stage_node. wf_object.
Qed.

(** The first character of a string escapes to no more than the string. *)
Lemma escape_length_charAt (s : string) :
  (Json.escape_length (charAt s 0) <= Json.escape_length s)%nat.
Proof.
  destruct s as [| c s]; [reflexivity |].
  cbn [charAt String.get Json.escape_length]. lia.
Qed.

(** An entry of the optimized shapes list against the node of the same
    shape: the node is longer by 37 characters at least. *)
Lemma entry_shorter_than_node (I X Y F R T Ty C : jsval) (rest : object) :
  (Json.text_length T <= Json.text_length Ty)%nat ->
  (Json.text_length
     (JObj [ ("i", I); ("x", X); ("y", Y); ("f", F); ("r", R); ("t", T) ])
   + 37
   <= Json.text_length
        (JObj [ ("attrs",
                 JObj ([ ("id", I); ("x", X); ("y", Y); ("fill", F);
                         ("rotation", R); ("type", Ty) ] ++ rest));
                ("className", C) ]))%nat.
Proof. intros HT. simpl. lia. Qed.

Lemma optimizedShape_shorter (s : shape) :
  (Json.text_length (optimizedShape s) + 37
   <= Json.text_length (shape_node s))%nat.
Proof.
  unfold optimizedShape, shape_node. apply entry_shorter_than_node.
  cbn [Json.text_length]. pose proof (escape_length_charAt (type s)). lia.
Qed.

Lemma fold_lengths_shorter (f g : shape -> nat) (k : nat) (l : list shape) :
  (forall s, f s + k <= g s)%nat ->
  (fold_right (fun n acc => n + 1 + acc) O (map f l) + k * length l
   <= fold_right (fun n acc => n + 1 + acc) O (map g l))%nat.
Proof.
  intros Hfg. induction l as [| s l IH]; simpl; [lia |].
  specialize (Hfg s). lia.
Qed.

Lemma items_shorter (shapes : list shape) :
  (Json.items_length (map Json.text_length (optimizedShapes shapes))
   + 37 * length shapes
   <= Json.items_length (map Json.text_length (map shape_node shapes)))%nat.
Proof.
  unfold optimizedShapes. rewrite !map_map.
  pose proof (fold_lengths_shorter
                (fun s => Json.text_length (optimizedShape s))
                (fun s => Json.text_length (shape_node s))
                37 shapes optimizedShape_shorter) as H.
  destruct shapes as [| s shapes]; [simpl; lia |].
  exact H.
Qed.

Lemma payload_text_length (a b c : jsval) (entries : list jsval) :
  Json.text_length
    (JObj [ ("v", a); ("c", b); ("d", c); ("s", JArr entries) ])
  = (Json.text_length a + Json.text_length b + Json.text_length c
     + Json.items_length (map Json.text_length entries) + 22)%nat.
Proof. simpl. lia. Qed.

Lemma header_text_lengths :
  Json.text_length (num 1) = 1%nat /\
  Json.text_length (JObj COMMON_PROPS) = 31%nat /\
  Json.text_length (JObj SHAPE_DEFAULTS) = 228%nat.
Proof. vm_compute. repeat split. Qed.

Lemma stage_text_length (attributes : jsval) (nodes : list jsval) :
  (Json.items_length (map Json.text_length nodes)
   <= Json.text_length
        (JObj [ ("attrs", attributes);
                ("className", JStr "Stage");
                ("children",
                 JArr [ JObj [ ("attrs", JObj []);
                               ("className", JStr "Layer");
                               ("children", JArr nodes) ] ]) ]))%nat.
Proof. simpl. lia. Qed.

(** With ten shapes or more, the optimized text is no longer than the
    text of the full shape tree. *)
Lemma optimized_shorter_than_tree (st : App) :
  (10 <= length (shapes st))%nat ->
  (Json.text_length (optimizedPayload (shapes st))
   <= Json.text_length (stage_node st))%nat.
Proof.
  intros Hlen. unfold optimizedPayload, stage_node.
  rewrite payload_text_length.
  destruct header_text_lengths as (-> & -> & ->).
  pose proof (items_shorter (shapes st)).
  pose proof (stage_text_length
                (JObj [ ("width", num 800); ("height", num 800);
                        ("scaleX", JNum SCALE); ("scaleY", JNum SCALE);
                        ("draggable", JBool true) ])
                (map shape_node (shapes st))).
  lia.
Qed.

(** C8.  With the regular export modelled as the text of the full shape
    tree and the JSON implementation of this file as the built-ins: once
    the shapes of the default generator are loaded ([setShapes] of
    [generateShapes], 10000 shapes, for any random source with draws in
    [0, 1)), the minified export ends normally, its text is no larger than
    the regular text, and the optimized text is no larger than the
    minified text. *)
Theorem default_export_sizes_ordered (randoms : nat -> Q) (st0 : App) :
  unit_draws randoms ->
  exists collection : list shape,
    option_map fst (runStateT (generateShapes randoms) O) = Some collection /\
    exists minified : string,
      @minifiedJson demo_host (snd (runState (setShapes collection) st0))
      = inr minified /\
      Blob_size minified
      <= Blob_size (@regularJson demo_host (snd (runState (setShapes collection) st0))) /\
      Blob_size (@optimizedJson demo_host (snd (runState (setShapes collection) st0)))
      <= Blob_size minified.
Proof.
  intros Hdraws.
  destruct (generated_shapes randoms Hdraws STAGE_WIDTH STAGE_HEIGHT) with
    (count := SHAPE_COUNT) as (collection & Hgen & Hlen & Hall & _);
    [unfold STAGE_WIDTH; lia | unfold STAGE_HEIGHT; lia |].
  exists collection. split; [exact Hgen |].
  set (st := snd (runState (setShapes collection) st0)).
  assert (Hshapes : shapes st = collection) by reflexivity.
  assert (Hwf : Json.wf (stage_node st)).
  { apply wf_stage_node. rewrite Hshapes.
    eapply Forall_impl; [| exact Hall].
    intros s [(Hkind & _) Hbuilt]. now split. }
  exists (Json.stringify (stage_node st)).
  split; [| split].
  - unfold minifiedJson. cbn [JSON_parse Stage_toJSON JSON_stringify demo_host json_host].
    now rewrite (JsonFacts.parse_stringify _ Hwf).
  - reflexivity.
  - unfold Blob_size, optimizedJson.
    cbn [JSON_stringify demo_host json_host].
    apply Nat2Z.inj_le. rewrite !JsonFacts.text_length_spec.
    apply optimized_shorter_than_tree.
    rewrite Hshapes, Hlen. unfold SHAPE_COUNT. lia.
Qed.

Lemma default_export_sizes_ordered_witness :
  exists collection : list shape,
    option_map fst (runStateT (generateShapes (constant_draws (1 # 2))) O)
    = Some collection /\
    exists minified : string,
      @minifiedJson demo_host (snd (runState (setShapes collection) demo_app))
      = inr minified /\
      Blob_size minified
      <= Blob_size (@regularJson demo_host
                      (snd (runState (setShapes collection) demo_app))) /\
      Blob_size (@optimizedJson demo_host
                   (snd (runState (setShapes collection) demo_app)))
      <= Blob_size minified.
Proof.
  apply (default_export_sizes_ordered (constant_draws (1 # 2)) demo_app).
  intros n; split; [discriminate | reflexivity].
Defined.

(** * Further properties of the program *)

(** ** Random integers and colours *)

(** X1.  [getRandomInt(min, max)] with [min <= max] makes one draw and,
    when the draw is in [0, 1), returns an integer between [min] and
    [max], both included. *)
Theorem getRandomInt_in_range (randoms : nat -> Q) (min max : Z) (n : nat) :
  (0 <= randoms n)%Q -> (randoms n < 1)%Q -> min <= max ->
  exists v : Z,
    runStateT (getRandomInt randoms min max) n = Some (v, S n) /\
    min <= v <= max.
Proof.
  intros H0 H1 Hle. eexists. split; [reflexivity |].
  pose proof (Qfloor_scale_bounds (randoms n) (max - min + 1) H0 H1). lia.
Qed.

Lemma getRandomInt_in_range_witness :
  exists v : Z,
    runStateT (getRandomInt (constant_draws (1 # 2)) 50 150) 3%nat
    = Some (v, 4%nat) /\
    50 <= v <= 150.
Proof.
  apply (getRandomInt_in_range (constant_draws (1 # 2)) 50 150 3);
    [discriminate | reflexivity | lia].
Defined.

Lemma Qfloor_fraction (a k : Z) :
  0 < k -> Qfloor ((a # Z.to_pos k) * inject_Z k) = a.
Proof.
  intros Hk. unfold Qfloor, Qmult, inject_Z. cbn [Qnum Qden].
  rewrite Pos.mul_1_r, Z2Pos.id by assumption.
  apply Z.div_mul. lia.
Qed.

(** X2.  Every integer between [min] and [max] is returned by
    [getRandomInt(min, max)] for some draw in [0, 1): both ends of the range
    are reached. *)
Theorem getRandomInt_reaches (min max v : Z) :
  min <= v <= max ->
  exists r : Q,
    (0 <= r)%Q /\ (r < 1)%Q /\
    forall n : nat,
      runStateT (getRandomInt (constant_draws r) min max) n = Some (v, S n).
Proof.
  intros Hv. exists ((v - min) # Z.to_pos (max - min + 1)).
  split; [| split].
  - unfold Qle; simpl. lia.
  - unfold Qlt; simpl. rewrite Z2Pos.id by lia. lia.
  - intros n. rewrite run_getRandomInt. unfold constant_draws.
    rewrite Qfloor_fraction by lia. do 2 f_equal. lia.
Qed.

Lemma getRandomInt_reaches_witness :
  exists r : Q,
    (0 <= r)%Q /\ (r < 1)%Q /\
    forall n : nat,
      runStateT (getRandomInt (constant_draws r) 0 360) n = Some (360, S n).
Proof. apply (getRandomInt_reaches 0 360 360). lia. Defined.

(** X3.  With [max < min] the range is empty, and [getRandomInt] still
    returns a value: an integer between [max + 1] and [min]. *)
Theorem getRandomInt_inverted (randoms : nat -> Q) (min max : Z) (n : nat) :
  (0 <= randoms n)%Q -> (randoms n < 1)%Q -> max < min ->
  exists v : Z,
    runStateT (getRandomInt randoms min max) n = Some (v, S n) /\
    max + 1 <= v <= min.
Proof.
  intros H0 H1 Hlt. eexists. split; [reflexivity |].
  set (k := max - min + 1). assert (Hk : k <= 0) by (unfold k; lia).
  destruct (randoms n) as [a b]. unfold Qle, Qlt in H0, H1.
  cbn [Qnum Qden] in H0, H1.
  unfold Qfloor, Qmult, inject_Z. cbn [Qnum Qden]. rewrite Pos.mul_1_r.
  assert (Hlow : k <= a * k / Z.pos b)
    by (apply Z.div_le_lower_bound; [lia | nia]).
  assert (Hup : a * k / Z.pos b <= 0)
    by (apply Z.div_le_upper_bound; [lia | nia]).
  unfold k in *. lia.
Qed.

Lemma getRandomInt_inverted_witness :
  exists v : Z,
    runStateT (getRandomInt (constant_draws (1 # 2)) 5 3) O = Some (v, 1%nat) /\
    3 + 1 <= v <= 5.
Proof.
  apply (getRandomInt_inverted (constant_draws (1 # 2)) 5 3 O);
    [discriminate | reflexivity | lia].
Defined.

(** X4.  [getRandomColor] makes one draw and, when the draw is in [0, 1),
    returns an entry of the palette. *)
Theorem getRandomColor_in_palette (randoms : nat -> Q) (n : nat) :
  (0 <= randoms n)%Q -> (randoms n < 1)%Q ->
  exists c : string,
    runStateT (getRandomColor randoms) n = Some (c, S n) /\ In c colors.
Proof.
  intros H0 H1.
  destruct (array_get_in_range colors
              (Qfloor (randoms n * inject_Z (Z.of_nat (length colors)))))
    as (c & Hc & Hin).
  { apply Qfloor_scale_bounds; simpl; auto; lia. }
  exists c. split; [| assumption].
  unfold getRandomColor. rewrite run_bind, run_Math_random, Hc. reflexivity.
Qed.

Lemma getRandomColor_in_palette_witness :
  exists c : string,
    runStateT (getRandomColor (constant_draws (1 # 2))) O = Some (c, 1%nat) /\
    In c colors.
Proof.
  apply (getRandomColor_in_palette (constant_draws (1 # 2)) O);
    [discriminate | reflexivity].
Defined.

(** ** The generator, shape by shape *)

Lemma run_generateShape_draws (randoms : nat -> Q)
      (stageWidth stageHeight i : Z) (n : nat) :
  runStateT (generateShape randoms stageWidth stageHeight i) n
  = match shape_of_source randoms stageWidth stageHeight i n with
    | Some s => Some (s, (6 + n)%nat)
    | None => None
    end.
Proof.
  unfold generateShape, shape_of_source, shape_of_draws.
  rewrite run_bind, run_Math_random. cbv beta iota.
  rewrite run_bind.
  destruct (array_get shapeTypes _) as [k |]; cbn [orThrow]; [| reflexivity].
  change (runStateT (ret k) (S n)) with (Some (k, S n)). cbv beta iota.
  do 4 (rewrite run_bind, run_getRandomInt; cbv beta iota).
  rewrite run_bind. unfold getRandomColor. rewrite run_bind, run_Math_random.
  cbv beta iota. cbn [Nat.add].
  destruct (array_get colors _) as [c |]; cbn [orThrow]; [| reflexivity].
  change (runStateT (ret c) (S (S (S (S (S (S n)))))))
    with (Some (c, S (S (S (S (S (S n))))))).
  cbv beta iota. rewrite run_bind.
  destruct (obj_get SHAPE_DEFAULTS k) as [[| | | | | o] |]; cbn [orThrow];
    reflexivity.
Qed.

Section GeneratorDraws.

Variable randoms : nat -> Q.
Hypothesis draws : unit_draws randoms.
Variables stageWidth stageHeight : Z.
Hypothesis width_nonneg : 0 <= stageWidth.
Hypothesis height_nonneg : 0 <= stageHeight.

Lemma generateFrom_draws (todo : nat) : forall (i : Z) (n : nat),
  exists shapes : list shape,
    runStateT (generateFrom randoms stageWidth stageHeight i todo) n
    = Some (shapes, (n + 6 * todo)%nat) /\
    map Some shapes
    = map (fun j => shape_of_source randoms stageWidth stageHeight
                      (i + Z.of_nat j) (n + 6 * j)%nat)
          (seq 0 todo).
Proof.
  induction todo as [| todo IH]; intros i n.
  - exists []. replace (n + 6 * 0)%nat with n by lia. split; reflexivity.
  - destruct (run_generateShape randoms draws stageWidth stageHeight i n
                width_nonneg height_nonneg) as (s & Hs & _).
    pose proof (run_generateShape_draws randoms stageWidth stageHeight i n)
      as Hdraws.
    rewrite Hs in Hdraws.
    destruct (shape_of_source randoms stageWidth stageHeight i n) as [s' |] eqn:E;
      [| discriminate]. injection Hdraws as ->.
    destruct (IH (i + 1) (n + 6)%nat) as (rest & Hrest & Hall).
    exists (s' :: rest). split.
    + cbn [generateFrom]. rewrite run_bind, Hs. cbv beta iota.
      rewrite run_bind, Hrest. cbv beta iota.
      replace (n + 6 + 6 * todo)%nat with (n + 6 * S todo)%nat by lia.
      reflexivity.
    + cbn [map seq]. rewrite Hall, <- seq_shift, map_map.
      f_equal.
      * rewrite <- E. f_equal; [lia | f_equal; lia].
      * apply map_ext. intros j.
        f_equal; [lia | lia].
  Qed.

End GeneratorDraws.

(** X5.  The generator makes exactly six draws per shape, and the shape of
    ordinal [i] is built from the draws [6i .. 6i+5] alone, in the order
    type, x, y, size, rotation, colour: it depends neither on the other
    draws nor on the number of shapes asked for. *)
Theorem generate_six_draws_each
        (randoms : nat -> Q) (count stageWidth stageHeight : Z) :
  unit_draws randoms -> 0 <= stageWidth -> 0 <= stageHeight ->
  exists collection : list shape,
    runStateT (generate randoms count stageWidth stageHeight) O
    = Some (collection, (6 * Z.to_nat count)%nat) /\
    map Some collection
    = map (fun i => shape_of_draws stageWidth stageHeight (Z.of_nat i)
                      (randoms (6 * i)%nat) (randoms (1 + 6 * i)%nat)
                      (randoms (2 + 6 * i)%nat) (randoms (3 + 6 * i)%nat)
                      (randoms (4 + 6 * i)%nat) (randoms (5 + 6 * i)%nat))
          (seq 0 (Z.to_nat count)).
Proof.
  intros Hdraws Hw Hh.
  destruct (generateFrom_draws randoms Hdraws stageWidth stageHeight Hw Hh
              (Z.to_nat count) 0 O) as (collection & Hrun & Hall).
  exists collection. split; [exact Hrun |].
  rewrite Hall. apply map_ext. intros i. reflexivity.
Qed.

Lemma generate_six_draws_each_witness :
  exists collection : list shape,
    runStateT (generate (constant_draws (2 # 5)) 3 100 200) O
    = Some (collection, (6 * Z.to_nat 3)%nat) /\
    map Some collection
    = map (fun i => shape_of_draws 100 200 (Z.of_nat i)
                      (2 # 5) (2 # 5) (2 # 5) (2 # 5) (2 # 5) (2 # 5))
          (seq 0 (Z.to_nat 3)).
Proof.
  apply (generate_six_draws_each (constant_draws (2 # 5)) 3 100 200);
    [intros n; split; [discriminate | reflexivity] | lia | lia].
Defined.

(** ** Identifiers *)

Lemma to_int_proper (z : Z) :
  Z.to_int z <> Decimal.Pos Decimal.Nil /\ Z.to_int z <> Decimal.Neg Decimal.Nil.
Proof.
  destruct z as [| p | p]; simpl; split; try discriminate;
    intros [= H]; exact (DecimalPos.Unsigned.to_uint_nonnil p H).
Qed.

Lemma toString_injective (a b : Z) : toString a = toString b -> a = b.
Proof.
  unfold toString. intros H.
  apply DecimalZ.to_int_inj.
  destruct (to_int_proper a) as [Ha1 Ha2], (to_int_proper b) as [Hb1 Hb2].
  pose proof (NilZero.isi _ Ha1 Ha2) as Ia.
  pose proof (NilZero.isi _ Hb1 Hb2) as Ib.
  rewrite H in Ia. rewrite Ia in Ib. now injection Ib.
Qed.

Lemma NoDup_ordinals (n : nat) : NoDup (ordinals n).
Proof.
  unfold ordinals.
  assert (H : forall l : list nat, NoDup l ->
              NoDup (map (fun i => toString (Z.of_nat i)) l)).
  { induction 1 as [| a l Ha Hl IH]; simpl; constructor; [| exact IH].
    intros Hin. apply in_map_iff in Hin. destruct Hin as (b & Hb & Hbin).
    apply toString_injective in Hb.
    assert (b = a) by lia. subst b. contradiction. }
  apply H, seq_NoDup.
Qed.

(** X6.  The identifiers of a generated collection are pairwise distinct. *)
Theorem generated_ids_distinct
        (randoms : nat -> Q) (count stageWidth stageHeight : Z) :
  unit_draws randoms -> 0 <= stageWidth -> 0 <= stageHeight ->
  exists collection : list shape,
    generated randoms count stageWidth stageHeight = Some collection /\
    NoDup (map id collection).
Proof.
  intros Hdraws Hw Hh.
  destruct (generated_shapes randoms Hdraws stageWidth stageHeight Hw Hh count)
    as (collection & Hgen & _ & _ & Hids).
  exists collection. split; [exact Hgen |].
  rewrite Hids. apply NoDup_ordinals.
Qed.

Lemma generated_ids_distinct_witness :
  exists collection : list shape,
    generated (constant_draws (1 # 2)) 12 100 200 = Some collection /\
    NoDup (map id collection).
Proof.
  apply (generated_ids_distinct (constant_draws (1 # 2)) 12 100 200);
    [intros n; split; [discriminate | reflexivity] | lia | lia].
Defined.

(** ** The geometry of a generated shape *)




(** ** A draw outside [0, 1) *)

Lemma type_draw_off_range (r : Q) :
  (r < 0)%Q \/ (1 <= r)%Q ->
  array_get shapeTypes (Qfloor (r * inject_Z (Z.of_nat (length shapeTypes))))
  = None.
Proof.
  intros Hr. destruct r as [a b]. unfold Qlt, Qle in Hr. cbn [Qnum Qden] in Hr.
  unfold array_get, Qfloor, Qmult, inject_Z. cbn [Qnum Qden length shapeTypes].
  rewrite Pos.mul_1_r. change (Z.of_nat 6) with 6.
  destruct Hr as [Hneg | Hbig].
  - assert (a * 6 / Z.pos b < 0)
      by (apply Z.div_lt_upper_bound; lia).
    destruct (Z.ltb_spec (a * 6 / Z.pos b) 0); [reflexivity | lia].
  - assert (6 <= a * 6 / Z.pos b)
      by (apply Z.div_le_lower_bound; lia).
    destruct (Z.ltb_spec (a * 6 / Z.pos b) 0); [reflexivity |].
    apply nth_error_None. simpl. lia.
Qed.

(** X8.  The generator relies on [Math.random] staying in [0, 1): when the
    first draw, that of the type of shape 0, is below 0 or not below 1,
    the type is [undefined] and generating one shape or more throws. *)
Theorem generate_throws_off_range
        (randoms : nat -> Q) (count stageWidth stageHeight : Z) :
  (randoms O < 0)%Q \/ (1 <= randoms O)%Q -> 0 < count ->
  generated randoms count stageWidth stageHeight = None.
Proof.
  intros Hr Hcount. unfold generated, generate.
  destruct (Z.to_nat count) as [| todo] eqn:E; [lia |].
  cbn [generateFrom]. rewrite run_bind, run_generateShape_draws.
  unfold shape_of_source, shape_of_draws.
  rewrite (type_draw_off_range (randoms O) Hr). reflexivity.
Qed.

Lemma generate_throws_off_range_witness :
  generated (constant_draws 1) 3 100 200 = None.
Proof.
  apply (generate_throws_off_range (constant_draws 1) 3 100 200);
    [right; discriminate | lia].
Defined.

(** ** Dragging and transforming a shape *)

Lemma array_set_length {A : Type} (a : list A) : forall (i : nat) (v : A),
  length (array_set a i v) = length a.
Proof.
  induction a as [| h a IH]; intros [| i] v; simpl; auto.
Qed.

Lemma array_set_same {A : Type} (a : list A) : forall (i : nat) (v : A),
  (i < length a)%nat -> nth_error (array_set a i v) i = Some v.
Proof.
  induction a as [| h a IH]; intros [| i] v Hi; simpl in *; try lia.
  - reflexivity.
  - apply IH. lia.
Qed.

Lemma array_set_other {A : Type} (a : list A) : forall (i j : nat) (v : A),
  j <> i -> nth_error (array_set a i v) j = nth_error a j.
Proof.
  induction a as [| h a IH]; intros [| i] [| j] v Hji; simpl;
    try reflexivity; try congruence.
  apply IH. congruence.
Qed.

Lemma array_set_map {A B : Type} (f : A -> B) (a : list A) :
  forall (i : nat) (old v : A),
    nth_error a i = Some old -> f v = f old ->
    map f (array_set a i v) = map f a.
Proof.
  induction a as [| h a IH]; intros [| i] old v Hold Hf; simpl in *;
    try discriminate.
  - injection Hold as ->. now rewrite Hf.
  - f_equal. eapply IH; eassumption.
Qed.

Section Interaction.

Context {host : Host}.

Lemma run_onChange (i : nat) (newAttrs : shape) (st : App) :
  runState (onChange i newAttrs) st
  = (tt, mkApp (fileSize st) (array_set (shapes st) i newAttrs)
               (selectedId st) (isLoading st) (stagePos st)
               (lastExportMethod st) (downloads st)).
Proof. reflexivity. Qed.

Lemma run_DragEnd (i : nat) (targetX targetY : Z) (st : App) (s : shape) :
  nth_error (shapes st) i = Some s ->
  runState (handle (DragEnd i targetX targetY)) st
  = runState (onChange i (dragged s targetX targetY)) st.
Proof. intros H. unfold handle. cbn. now rewrite H. Qed.

Lemma run_TransformEnd (i : nat) (n : node) (st : App) (s : shape) :
  nth_error (shapes st) i = Some s ->
  runState (handle (TransformEnd i n)) st
  = runState (onChange i (transformed s n)) st.
Proof. intros H. unfold handle. cbn. now rewrite H. Qed.

Lemma run_Click (i : nat) (st : App) (s : shape) :
  nth_error (shapes st) i = Some s ->
  runState (handle (Click i)) st
  = (tt, mkApp (fileSize st) (shapes st) (Some (id s)) (isLoading st)
               (stagePos st) (lastExportMethod st) (downloads st)).
Proof. intros H. unfold handle. cbn. now rewrite H. Qed.

End Interaction.

Lemma nth_error_length {A : Type} (a : list A) (i : nat) (v : A) :
  nth_error a i = Some v -> (i < length a)%nat.
Proof. intros H. apply nth_error_Some. congruence. Qed.

(** X9.  Ending a drag of the shape of index [i] moves that shape to the
    position of the event target and changes nothing else: its id, fill,
    rotation, type and attributes, every other shape, the number of
    shapes and the rest of the component state stay as they were. *)
Theorem drag_moves_one_shape
        (host : Host) (st : App) (i : nat) (s : shape) (targetX targetY : Z) :
  nth_error (shapes st) i = Some s ->
  exists moved : shape,
    nth_error (shapes (snd (runState (handle (DragEnd i targetX targetY)) st))) i
    = Some moved /\
    x moved = targetX /\ y moved = targetY /\
    id moved = id s /\ fill moved = fill s /\ rotation moved = rotation s /\
    type moved = type s /\ attrs moved = attrs s /\
    (forall j : nat, j <> i ->
       nth_error (shapes (snd (runState (handle (DragEnd i targetX targetY)) st))) j
       = nth_error (shapes st) j) /\
    length (shapes (snd (runState (handle (DragEnd i targetX targetY)) st)))
    = length (shapes st) /\
    snd (runState (handle (DragEnd i targetX targetY)) st)
    = snd (runState (setShapes
                       (shapes (snd (runState (handle (DragEnd i targetX targetY)) st))))
                    st).
Proof.
  intros Hs. rewrite (run_DragEnd i targetX targetY st s Hs), run_onChange.
  cbn [snd shapes].
  exists (dragged s targetX targetY).
  split; [apply array_set_same; eapply nth_error_length; eassumption |].
  repeat split.
  - intros j Hj. now apply array_set_other.
  - apply array_set_length.
Qed.

Lemma drag_moves_one_shape_witness :
  exists moved : shape,
    nth_error (shapes (snd (runState (@handle bare_host (DragEnd 1 70 80)) demo_app))) 1
    = Some moved /\
    x moved = 70 /\ y moved = 80 /\
    id moved = "1" /\ fill moved = "#0F0" /\ rotation moved = 0 /\
    type moved = "circle" /\ attrs moved = [] /\
    (forall j : nat, j <> 1%nat ->
       nth_error (shapes (snd (runState (@handle bare_host (DragEnd 1 70 80)) demo_app))) j
       = nth_error (shapes demo_app) j) /\
    length (shapes (snd (runState (@handle bare_host (DragEnd 1 70 80)) demo_app)))
    = length (shapes demo_app) /\
    snd (runState (@handle bare_host (DragEnd 1 70 80)) demo_app)
    = snd (runState (setShapes
                       (shapes (snd (runState (@handle bare_host (DragEnd 1 70 80))
                                              demo_app))))
                    demo_app).
Proof.
  apply (drag_moves_one_shape bare_host demo_app 1
           (mkShape "1" 15 5 "#0F0" 0 "circle" []) 70 80).
  reflexivity.
Defined.

Lemma obj_get_obj_set_same (o : object) (key : string) (v : jsval) :
  obj_get (obj_set o key v) key = Some v.
Proof.
  induction o as [| [k w] o IH]; simpl.
  - now rewrite String.eqb_refl.
  - destruct (String.eqb k key) eqn:E; simpl; rewrite E; [reflexivity | exact IH].
Qed.

Lemma obj_get_obj_set_other (o : object) (key other : string) (v : jsval) :
  other <> key -> obj_get (obj_set o key v) other = obj_get o other.
Proof.
  intros Hne. induction o as [| [k w] o IH]; simpl.
  - destruct (String.eqb_spec key other); [congruence | reflexivity].
  - destruct (String.eqb_spec k key) as [-> | Hk]; simpl.
    + destruct (String.eqb_spec key other); [congruence | reflexivity].
    + destruct (String.eqb k other); [reflexivity | exact IH].
Qed.

(** X10.  Ending a transform of the shape of index [i] gives that shape
    the position and rotation of its node and the attributes [width] and
    [height], the size of the node times its scale, whatever its kind;
    every other attribute, its id, fill and type, and every other shape
    stay as they were. *)
Theorem transform_resizes_one_shape
        (host : Host) (st : App) (i : nat) (s : shape) (n : node) :
  nth_error (shapes st) i = Some s ->
  exists resized : shape,
    nth_error (shapes (snd (runState (handle (TransformEnd i n)) st))) i
    = Some resized /\
    x resized = node_x n /\ y resized = node_y n /\
    rotation resized = node_rotation n /\
    obj_get (attrs resized) "width"
    = Some (JNum (node_width n * node_scaleX n)%Q) /\
    obj_get (attrs resized) "height"
    = Some (JNum (node_height n * node_scaleY n)%Q) /\
    (forall key : string, key <> "width" -> key <> "height" ->
       obj_get (attrs resized) key = obj_get (attrs s) key) /\
    id resized = id s /\ fill resized = fill s /\ type resized = type s /\
    (forall j : nat, j <> i ->
       nth_error (shapes (snd (runState (handle (TransformEnd i n)) st))) j
       = nth_error (shapes st) j) /\
    length (shapes (snd (runState (handle (TransformEnd i n)) st)))
    = length (shapes st).
Proof.
  intros Hs. rewrite (run_TransformEnd i n st s Hs), run_onChange.
  cbn [snd shapes].
  exists (transformed s n).
  split; [apply array_set_same; eapply nth_error_length; eassumption |].
  unfold transformed. cbn [x y rotation attrs id fill type].
  repeat split.
  - rewrite obj_get_obj_set_other by discriminate.
    apply obj_get_obj_set_same.
  - apply obj_get_obj_set_same.
  - intros key Hw Hh. now rewrite !obj_get_obj_set_other.
  - intros j Hj. now apply array_set_other.
  - apply array_set_length.
Qed.

Lemma transform_resizes_one_shape_witness :
  exists resized : shape,
    nth_error (shapes (snd (runState
                              (@handle bare_host
                                 (TransformEnd 1 (mkNode 7 8 30 40 2 3 90)))
                              demo_app))) 1
    = Some resized /\
    x resized = 7 /\ y resized = 8 /\ rotation resized = 90 /\
    obj_get (attrs resized) "width" = Some (JNum (30 * 2)%Q) /\
    obj_get (attrs resized) "height" = Some (JNum (40 * 3)%Q) /\
    (forall key : string, key <> "width" -> key <> "height" ->
       obj_get (attrs resized) key = obj_get [] key) /\
    id resized = "1" /\ fill resized = "#0F0" /\ type resized = "circle" /\
    (forall j : nat, j <> 1%nat ->
       nth_error (shapes (snd (runState
                                 (@handle bare_host
                                    (TransformEnd 1 (mkNode 7 8 30 40 2 3 90)))
                                 demo_app))) j
       = nth_error (shapes demo_app) j) /\
    length (shapes (snd (runState
                           (@handle bare_host
                              (TransformEnd 1 (mkNode 7 8 30 40 2 3 90)))
                           demo_app)))
    = length (shapes demo_app).
Proof.
  apply (transform_resizes_one_shape bare_host demo_app 1
           (mkShape "1" 15 5 "#0F0" 0 "circle" [])
           (mkNode 7 8 30 40 2 3 90)).
  reflexivity.
Defined.

(** ** The limit on resizing *)

(** X11.  [boundBoxFunc] answers one of its two boxes: the new box when
    its larger side is 5 or more, the old box otherwise.  So a box whose
    larger side is 5 at least stays so, whatever boxes are proposed. *)
Theorem boundBoxFunc_keeps_large (oldBox newBox : box) :
  (large_enough newBox -> boundBoxFunc oldBox newBox = newBox) /\
  (~ large_enough newBox -> boundBoxFunc oldBox newBox = oldBox) /\
  (large_enough oldBox -> large_enough (boundBoxFunc oldBox newBox)).
Proof.
  unfold boundBoxFunc, large_enough.
  destruct (Qle_bool 5 (Math_max (box_width newBox) (box_height newBox))) eqn:E;
    cbn [negb].
  - apply Qle_bool_iff in E. repeat split; tauto.
  - assert (~ (5 <= Math_max (box_width newBox) (box_height newBox))%Q)
      by (rewrite <- Qle_bool_iff; congruence).
    repeat split; tauto.
Qed.

Lemma boundBoxFunc_keeps_large_witness :
  (large_enough (mkBox 0 0 3 10 0) ->
   boundBoxFunc (mkBox 0 0 20 20 0) (mkBox 0 0 3 10 0) = mkBox 0 0 3 10 0) /\
  (~ large_enough (mkBox 0 0 3 10 0) ->
   boundBoxFunc (mkBox 0 0 20 20 0) (mkBox 0 0 3 10 0) = mkBox 0 0 20 20 0) /\
  (large_enough (mkBox 0 0 20 20 0) ->
   large_enough (boundBoxFunc (mkBox 0 0 20 20 0) (mkBox 0 0 3 10 0))).
Proof.
  exact (boundBoxFunc_keeps_large (mkBox 0 0 20 20 0) (mkBox 0 0 3 10 0)).
Defined.

(** ** Selection *)

Lemma filter_no_id (l : list shape) (s : shape) :
  ~ In (id s) (map id l) ->
  filter (fun t => String.eqb (id t) (id s)) l = [].
Proof.
  induction l as [| t l IH]; simpl; intros Hfresh; [reflexivity |].
  destruct (String.eqb_spec (id t) (id s)) as [E | _]; [tauto |].
  apply IH. tauto.
Qed.

Lemma filter_by_id (l : list shape) : forall (i : nat) (s : shape),
  nth_error l i = Some s -> NoDup (map id l) ->
  filter (fun t => String.eqb (id t) (id s)) l = [s].
Proof.
  induction l as [| h l IH]; intros [| i] s Hs Hnd; simpl in *;
    try discriminate; inversion Hnd as [| ? ? Hfresh Hnd']; subst.
  - injection Hs as ->. rewrite String.eqb_refl. f_equal.
    now apply filter_no_id.
  - destruct (String.eqb_spec (id h) (id s)) as [E | _].
    + exfalso. apply Hfresh. rewrite E. apply in_map.
      eapply nth_error_In; eassumption.
    + eapply IH; eassumption.
Qed.

(** X12.  With distinct ids, a click on the shape of index [i] selects
    that shape and no other; a press on the empty stage afterwards
    deselects it, and a press elsewhere keeps the selection. *)
Theorem click_selects_one (host : Host) (st : App) (i : nat) (s : shape) :
  nth_error (shapes st) i = Some s -> NoDup (map id (shapes st)) ->
  filter (isSelected (snd (runState (handle (Click i)) st)))
         (shapes (snd (runState (handle (Click i)) st)))
  = [s] /\
  filter (isSelected
            (snd (runState (handle (Click i) ;; handle (MouseDown true)) st)))
         (shapes st)
  = [] /\
  snd (runState (handle (Click i) ;; handle (MouseDown false)) st)
  = snd (runState (handle (Click i)) st).
Proof.
  intros Hs Hnd.
  assert (Hseq : forall b,
             runState (handle (Click i) ;; handle (MouseDown b)) st
             = runState (handle (MouseDown b))
                        (snd (runState (handle (Click i)) st)))
    by (intros b; cbn; rewrite Hs; reflexivity).
  rewrite !Hseq, (run_Click i st s Hs). cbn [snd shapes].
  split; [| split].
  - unfold isSelected. cbn [selectedId]. eapply filter_by_id; eassumption.
  - cbn. unfold isSelected. cbn [selectedId].
    generalize (shapes st). intros l. induction l; simpl; auto.
  - reflexivity.
Qed.

Lemma click_selects_one_witness :
  filter (isSelected (snd (runState (@handle bare_host (Click 2)) demo_app)))
         (shapes (snd (runState (@handle bare_host (Click 2)) demo_app)))
  = [mkShape "2" 100 100 "#00F" 0 "star" []] /\
  filter (isSelected
            (snd (runState (@handle bare_host (Click 2) ;;
                            @handle bare_host (MouseDown true)) demo_app)))
         (shapes demo_app)
  = [] /\
  snd (runState (@handle bare_host (Click 2) ;;
                 @handle bare_host (MouseDown false)) demo_app)
  = snd (runState (@handle bare_host (Click 2)) demo_app).
Proof.
  apply (click_selects_one bare_host demo_app 2
           (mkShape "2" 100 100 "#00F" 0 "star" [])).
  - reflexivity.
  - repeat constructor; simpl; intuition discriminate.
Defined.

(** ** Zooming with the wheel *)

Lemma Math_max_lower (a b : Q) : (a <= Math_max a b)%Q /\ (b <= Math_max a b)%Q.
Proof.
  unfold Math_max. destruct (Qle_bool a b) eqn:E.
  - apply Qle_bool_iff in E. split; [assumption | apply Qle_refl].
  - split; [apply Qle_refl |].
    destruct (Qlt_le_dec a b) as [Hlt | Hle]; [| assumption].
    apply Qlt_le_weak in Hlt. apply Qle_bool_iff in Hlt. congruence.
Qed.

Lemma Math_min_upper (a b : Q) : (Math_min a b <= a)%Q /\ (Math_min a b <= b)%Q.
Proof.
  unfold Math_min. destruct (Qle_bool a b) eqn:E.
  - apply Qle_bool_iff in E. split; [apply Qle_refl | assumption].
  - split; [| apply Qle_refl].
    destruct (Qlt_le_dec a b) as [Hlt | Hle]; [| assumption].
    apply Qlt_le_weak in Hlt. apply Qle_bool_iff in Hlt. congruence.
Qed.

Lemma newScale_of_bounds (oldScale deltaY : Q) :
  (5 # 100 <= newScale_of oldScale deltaY)%Q /\
  (newScale_of oldScale deltaY <= 4)%Q.
Proof.
  unfold newScale_of. split; [apply Math_max_lower |].
  unfold Math_max at 1.
  destruct (Qle_bool _ _); [apply Math_min_upper | unfold Qle; simpl; lia].
Qed.

(** X13.  Whatever the scale of the stage and the wheel delta, the scale
    [handleWheel] computes lies between 0.05 and 4, and the handler writes
    nothing but the position of the stage. *)
Theorem wheel_scale_clamped
        (oldScale pointerX pointerY stageX stageY deltaY : Q) (st : App) :
  (5 # 100 <= newScale_of oldScale deltaY)%Q /\
  (newScale_of oldScale deltaY <= 4)%Q /\
  snd (runState (handleWheel oldScale pointerX pointerY stageX stageY deltaY) st)
  = snd (runState
           (setStagePos
              (stagePos (snd (runState (handleWheel oldScale pointerX pointerY
                                                    stageX stageY deltaY) st))))
           st).
Proof.
  destruct (newScale_of_bounds oldScale deltaY). repeat split; assumption.
Qed.



(** ** What the exports keep of a shape *)

Lemma optimizedShape_fields (s1 s2 : shape) :
  optimizedShape s1 = optimizedShape s2 <-> exported_fields s1 = exported_fields s2.
Proof.
  unfold optimizedShape, exported_fields, num, inject_Z. split.
  - intros H. injection H as -> -> -> -> -> ->. reflexivity.
  - intros H. injection H as -> -> -> -> -> ->. reflexivity.
Qed.

Lemma map_same_kernel {A B C : Type} (f : A -> B) (g : A -> C) :
  (forall a b, f a = f b <-> g a = g b) ->
  forall l1 l2, map f l1 = map f l2 <-> map g l1 = map g l2.
Proof.
  intros Hfg.
  induction l1 as [| a l1 IH]; intros [| b l2]; cbn [map]; split;
    try reflexivity; try discriminate; intros H;
    injection H as Hhead Htail;
    (f_equal; [now apply Hfg | now apply IH]).
Qed.

Lemma optimized_fields_iff (l1 l2 : list shape) :
  optimizedShapes l1 = optimizedShapes l2
  <-> map exported_fields l1 = map exported_fields l2.
Proof.
  unfold optimizedShapes. apply map_same_kernel, optimizedShape_fields.
Qed.

(** X15.  An entry of the optimized shapes list records the id, the
    position, the fill, the rotation and the first character of the type
    of its shape, and nothing else: two collections have the same
    optimized shapes list exactly when they agree on these six values,
    shape by shape. *)
Theorem optimized_keeps_six_fields (l1 l2 : list shape) :
  optimizedShapes l1 = optimizedShapes l2
  <-> map exported_fields l1 = map exported_fields l2.
Proof.
  apply optimized_fields_iff.
Qed.

Lemma compressedFrom_fields (l1 : list shape) : forall (l2 : list shape) (a b : Z),
  compressedFrom a b l1 = compressedFrom a b l2
  <-> map exported_fields l1 = map exported_fields l2.
Proof.
  induction l1 as [| s1 l1 IH]; intros [| s2 l2] a b;
    cbn [map compressedFrom]; split;
    try reflexivity; try discriminate; intros H.
  - unfold num, inject_Z in H.
    injection H as Hid Hx Hy Hfill Hrot Htag Htail.
    assert (Hx' : x s1 = x s2) by lia. assert (Hy' : y s1 = y s2) by lia.
    rewrite Hx', Hy' in Htail.
    apply IH in Htail. unfold exported_fields at 1 3. congruence.
  - assert (Hhead : exported_fields s1 = exported_fields s2) by congruence.
    assert (Htail : map exported_fields l1 = map exported_fields l2) by congruence.
    unfold exported_fields in Hhead.
    injection Hhead as Hid Hx Hy Hfill Hrot Htag.
    rewrite Hid, Hx, Hy, Hfill, Hrot, Htag. f_equal.
    now apply IH.
Qed.

Lemma compressed_fields_iff (l1 l2 : list shape) :
  compressedShapes l1 = compressedShapes l2
  <-> map exported_fields l1 = map exported_fields l2.
Proof. unfold compressedShapes. apply compressedFrom_fields. Qed.


(** ** What an edit changes in the compact exports *)

Lemma nth_error_map_exported {A B : Type} (f : A -> B) (l : list A) (j : nat) :
  nth_error (map f l) j = option_map f (nth_error l j).
Proof.
  revert j. induction l as [| a l IH]; intros [| j]; simpl; auto.
Qed.

Lemma nth_error_compressedFrom (l : list shape) : forall (a b : Z) (j : nat),
  nth_error (compressedFrom a b l) j
  = match nth_error l j with
    | Some s =>
        hd_error (compressedFrom (fst (position_before a b l j))
                                 (snd (position_before a b l j)) [s])
    | None => None
    end.
Proof.
  induction l as [| s l IH]; intros a b [| j].
  - reflexivity.
  - reflexivity.
  - reflexivity.
  - cbn [compressedFrom nth_error]. rewrite IH.
    destruct (nth_error l j) as [p |] eqn:Hp; [| reflexivity].
    destruct j as [| k]; [reflexivity |].
    cbn [position_before nth_error].
    destruct (nth_error l k) as [q |] eqn:Hq; [reflexivity |].
    exfalso. apply nth_error_None in Hq.
    assert (Hlt : (S k < length l)%nat) by (apply nth_error_Some; congruence).
    lia.
Qed.

(** X17.  A transform that only resizes a shape (the node keeps the
    position and the rotation of the shape) does not show in the optimized
    or in the compressed export: both texts are those of the collection
    before the transform, since neither records the width and the height
    the handler stores. *)
Theorem resize_not_in_compact_exports
        (host : Host) (st : App) (i : nat) (s : shape) (n : node) :
  nth_error (shapes st) i = Some s ->
  node_x n = x s -> node_y n = y s -> node_rotation n = rotation s ->
  optimizedJson (snd (runState (handle (TransformEnd i n)) st)) = optimizedJson st /\
  compressedJson (snd (runState (handle (TransformEnd i n)) st)) = compressedJson st.
Proof.
  intros Hs Hx Hy Hr.
  rewrite (run_TransformEnd i n st s Hs), run_onChange. cbn [snd].
  assert (Hfields : map exported_fields (array_set (shapes st) i (transformed s n))
                    = map exported_fields (shapes st)).
  { apply array_set_map with (old := s); [exact Hs |].
    unfold exported_fields, transformed. cbn [id x y fill rotation type].
    now rewrite Hx, Hy, Hr. }
  unfold optimizedJson, compressedJson, optimizedPayload, compressedPayload.
  cbn [shapes].
  apply optimized_fields_iff in Hfields as Hopt.
  apply compressed_fields_iff in Hfields as Hcomp.
  now rewrite Hopt, Hcomp.
Qed.

Lemma resize_not_in_compact_exports_witness :
  @optimizedJson bare_host (snd (runState
                        (@handle bare_host (TransformEnd 1 (mkNode 15 5 30 40 2 3 0)))
                        demo_app))
  = @optimizedJson bare_host demo_app /\
  @compressedJson bare_host (snd (runState
                         (@handle bare_host (TransformEnd 1 (mkNode 15 5 30 40 2 3 0)))
                         demo_app))
  = @compressedJson bare_host demo_app.
Proof.
  apply (resize_not_in_compact_exports bare_host demo_app 1
           (mkShape "1" 15 5 "#0F0" 0 "circle" [])
           (mkNode 15 5 30 40 2 3 0));
    reflexivity.
Defined.

(** X18.  Ending a drag of the shape of index [i] changes one entry of the
    optimized shapes list, the one of index [i], and at most two of the
    compressed shapes list, those of indices [i] and [i + 1]: the entry
    after the dragged shape holds its position relative to the new one. *)
Theorem drag_changes_few_entries
        (host : Host) (st : App) (i : nat) (s : shape) (targetX targetY : Z) :
  nth_error (shapes st) i = Some s ->
  (forall j : nat, j <> i ->
     nth_error (optimizedShapes
                  (shapes (snd (runState (handle (DragEnd i targetX targetY)) st)))) j
     = nth_error (optimizedShapes (shapes st)) j) /\
  (forall j : nat, j <> i -> j <> S i ->
     nth_error (compressedShapes
                  (shapes (snd (runState (handle (DragEnd i targetX targetY)) st)))) j
     = nth_error (compressedShapes (shapes st)) j) /\
  (forall next : shape, nth_error (shapes st) (S i) = Some next ->
     nth_error (compressedShapes
                  (shapes (snd (runState (handle (DragEnd i targetX targetY)) st))))
               (S i)
     = hd_error (compressedFrom targetX targetY [next])).
Proof.
  intros Hs. rewrite (run_DragEnd i targetX targetY st s Hs), run_onChange.
  cbn [snd shapes].
  assert (Hi : (i < length (shapes st))%nat) by (eapply nth_error_length; eassumption).
  split; [| split].
  - intros j Hj. unfold optimizedShapes.
    rewrite !nth_error_map_exported. now rewrite array_set_other.
  - intros j Hj HjS. unfold compressedShapes.
    rewrite !nth_error_compressedFrom.
    rewrite array_set_other by exact Hj.
    destruct (nth_error (shapes st) j) as [p |]; [| reflexivity].
    destruct j as [| k]; [reflexivity |].
    cbn [position_before].
    rewrite array_set_other by congruence. reflexivity.
  - intros next Hnext. unfold compressedShapes.
    rewrite nth_error_compressedFrom.
    rewrite array_set_other by lia. rewrite Hnext.
    cbn [position_before]. rewrite array_set_same by exact Hi.
    reflexivity.
Qed.

Lemma drag_changes_few_entries_witness :
  (forall j : nat, j <> 1%nat ->
     nth_error (optimizedShapes
                  (shapes (snd (runState (@handle bare_host (DragEnd 1 70 80))
                                         demo_app)))) j
     = nth_error (optimizedShapes (shapes demo_app)) j) /\
  (forall j : nat, j <> 1%nat -> j <> 2%nat ->
     nth_error (compressedShapes
                  (shapes (snd (runState (@handle bare_host (DragEnd 1 70 80))
                                         demo_app)))) j
     = nth_error (compressedShapes (shapes demo_app)) j) /\
  (forall next : shape, nth_error (shapes demo_app) 2 = Some next ->
     nth_error (compressedShapes
                  (shapes (snd (runState (@handle bare_host (DragEnd 1 70 80))
                                         demo_app))))
               2
     = hd_error (compressedFrom 70 80 [next])).
Proof.
  apply (drag_changes_few_entries bare_host demo_app 1
           (mkShape "1" 15 5 "#0F0" 0 "circle" []) 70 80).
  reflexivity.
Defined.

(** ** Sessions *)

Section SessionFacts.

Context {host : Host}.

Lemma run_session_cons (e : event) (rest : list event) (st : App) :
  snd (runState (session (e :: rest)) st)
  = snd (runState (session rest) (snd (runState (handle e) st))).
Proof.
  change (snd (let (_, st') := runState (handle e) st in runState (session rest) st')
          = snd (runState (session rest) (snd (runState (handle e) st)))).
  destruct (runState (handle e) st). reflexivity.
Qed.

(** What one event does to the state: it keeps the identity of every
    shape, and either leaves the exports' cells alone or runs
    [downloadAndShowSize] once, on one of the four method names. *)
Lemma handle_effect (e : event) (st : App) :
  map identity_of (shapes (snd (runState (handle e) st)))
  = map identity_of (shapes st) /\
  ((fileSize (snd (runState (handle e) st)) = fileSize st /\
    lastExportMethod (snd (runState (handle e) st)) = lastExportMethod st /\
    downloads (snd (runState (handle e) st)) = downloads st) \/
   (is_export e = true /\
    exists blob method : string,
      In method ["regular"; "minified"; "optimized"; "compressed"] /\
      snd (runState (handle e) st)
      = snd (runState (downloadAndShowSize blob method) st))).
Proof.
  destruct e as [i tx ty | i n | i | clicked | s0 px py sx sy dy | method].
  - destruct (nth_error (shapes st) i) as [s |] eqn:Hs.
    + rewrite (run_DragEnd i tx ty st s Hs), run_onChange. cbn [snd shapes].
      split; [| left; auto].
      apply array_set_map with (old := s); [exact Hs | reflexivity].
    + unfold handle. cbn. rewrite Hs. cbn. auto.
  - destruct (nth_error (shapes st) i) as [s |] eqn:Hs.
    + rewrite (run_TransformEnd i n st s Hs), run_onChange. cbn [snd shapes].
      split; [| left; auto].
      apply array_set_map with (old := s); [exact Hs | reflexivity].
    + unfold handle. cbn. rewrite Hs. cbn. auto.
  - destruct (nth_error (shapes st) i) as [s |] eqn:Hs.
    + rewrite (run_Click i st s Hs). cbn. auto.
    + unfold handle. cbn. rewrite Hs. cbn. auto.
  - destruct clicked; cbn; auto.
  - cbn. auto.
  - destruct method.
    + split; [reflexivity |]. right. split; [reflexivity |].
      exists (regularJson st), "regular". split; [simpl; auto | reflexivity].
    + assert (Hrun : snd (runState (handle (ExportClick Minified)) st)
                     = snd (runState handleMinifiedExport st)).
      { unfold handle. cbn. destruct (JSON_parse (Stage_toJSON st)); reflexivity. }
      rewrite Hrun, run_handleMinifiedExport.
      destruct (minifiedJson st) as [err | minified].
      * cbn [snd]. auto.
      * cbn [snd]. split; [reflexivity |]. right. split; [reflexivity |].
        exists minified, "minified". split; [simpl; auto | reflexivity].
    + split; [reflexivity |]. right. split; [reflexivity |].
      exists (optimizedJson st), "optimized". split; [simpl; auto | reflexivity].
    + split; [reflexivity |]. right. split; [reflexivity |].
      exists (compressedJson st), "compressed". split; [simpl; auto | reflexivity].
Qed.

Lemma session_identity_of (events : list event) : forall st : App,
  map identity_of (shapes (snd (runState (session events) st)))
  = map identity_of (shapes st).
Proof.
  induction events as [| e rest IH]; intros st.
  - reflexivity.
  - rewrite run_session_cons, IH. apply handle_effect.
Qed.

End SessionFacts.

(** X19.  No sequence of drags, transforms, clicks, wheel moves and
    exports adds, removes or reorders a shape, or changes the id, the fill
    or the type of one. *)
Theorem session_keeps_identities (host : Host) (events : list event) (st : App) :
  map identity_of (shapes (snd (runState (session events) st)))
  = map identity_of (shapes st) /\
  length (shapes (snd (runState (session events) st))) = length (shapes st).
Proof.
  split; [apply session_identity_of |].
  rewrite <- (length_map identity_of), session_identity_of. apply length_map.
Qed.

(** X20.  The download log only grows: a session keeps the files handed
    out before it, in order, and adds at most one file per export click,
    each named after one of the four methods. *)
Theorem session_downloads_grow (host : Host) (events : list event) (st : App) :
  exists added : list (string * string),
    downloads (snd (runState (session events) st)) = downloads st ++ added /\
    (length added <= length (filter is_export events))%nat /\
    Forall (fun file => In (fst file) export_names) added.
Proof.
  revert st. induction events as [| e rest IH]; intros st.
  - exists []. cbn. rewrite app_nil_r. repeat split; auto.
  - rewrite run_session_cons.
    destruct (IH (snd (runState (handle e) st))) as (added & Hlog & Hlen & Hnames).
    destruct (handle_effect e st) as [_ [(_ & _ & Hsame) | (He & blob & method & Hm & Hrun)]].
    + exists added. rewrite Hlog, Hsame. repeat split; [| exact Hnames].
      cbn [filter]. destruct (is_export e); cbn [length]; lia.
    + exists ((String.append "stage-" (String.append method ".json"), blob) :: added).
      rewrite Hlog, Hrun, run_downloadAndShowSize. cbn [snd downloads].
      rewrite <- app_assoc. repeat split.
      * cbn [filter]. rewrite He. cbn [length]. lia.
      * constructor; [| exact Hnames].
        cbn [fst]. unfold export_names.
        destruct Hm as [<- | [<- | [<- | [<- | []]]]]; simpl; auto.
Qed.

Lemma last_download_snoc (st : App) (file : string * string) (log : list (string * string)) :
  downloads st = log ++ [file] -> last_download st = Some file.
Proof.
  intros H. unfold last_download. rewrite H, map_app. cbn [map].
  apply last_last.
Qed.

(** X21.  The size and the method the page shows are always those of the
    file handed out last: if they are before a session, they are after
    it.  Before the first export no size is shown. *)
Theorem session_display_consistent (host : Host) (events : list event) (st : App) :
  display_consistent st ->
  display_consistent (snd (runState (session events) st)).
Proof.
  revert st. induction events as [| e rest IH]; intros st Hst.
  - exact Hst.
  - rewrite run_session_cons. apply IH.
    destruct (handle_effect e st) as [_ [(Hsize & Hmethod & Hlog) | (_ & blob & method & _ & Hrun)]].
    + unfold display_consistent, last_download in *.
      rewrite Hsize, Hmethod, Hlog. exact Hst.
    + rewrite Hrun, run_downloadAndShowSize. cbn [snd].
      unfold display_consistent.
      rewrite (last_download_snoc _
                 (String.append "stage-" (String.append method ".json"), blob)
                 (downloads st)) by reflexivity.
      cbn [fileSize lastExportMethod]. auto.
Qed.

Lemma session_display_consistent_witness :
  display_consistent initial_app /\
  display_consistent
    (snd (runState (@session bare_host
                      [ExportClick Optimized; Click 0; ExportClick Minified])
                   initial_app)).
Proof.
  split; [reflexivity |].
  apply (session_display_consistent bare_host
           [ExportClick Optimized; Click 0; ExportClick Minified] initial_app).
  reflexivity.
Defined.

(** ** Loading the stage *)



